(** * NES box art scraper: the download pipeline of [scraper.py]

    A shallow embedding of the pure helpers ([sanitize_filename],
    [get_extension]), of the scan and the URL deduplication of
    [extract_games_from_page], of the waiting and scrolling loops and of the
    download loop of [main], with the browser session, the disk and [urllib]
    as an explicit [World] of outcomes. *)

From Stdlib Require Import Ascii String Arith Lia.
From stdpp Require Import base decidable list sets gmap strings pretty.

Local Open Scope string_scope.
Local Open Scope nat_scope.
Local Open Scope list_scope.

(** ** Characters

    A Python [str] is modelled as a [string] of 8-bit characters, read as the
    code points U+0000..U+00FF. *)

Module Char.

Definition code (c : ascii) : nat := nat_of_ascii c.

(** The quotation mark, U+0022. *)
Definition dquote : ascii := ascii_of_nat 34.

Definition hyphen : ascii := "-"%char.

(** [str.isspace] on one code point below U+0100; the class [\s] of [re]
    on a [str] pattern is the same predicate. *)
Definition isspace (c : ascii) : bool :=
  let n := code c in
  ((9 <=? n) && (n <=? 13)) || ((28 <=? n) && (n <=? 32))
  || (n =? 133) || (n =? 160).

(** The character class of the first substitution of [sanitize_filename]. *)
Definition illegal (c : ascii) : bool :=
  bool_decide (c ∈ ["<"; ">"; ":"; dquote; "/"; "\"; "|"; "?"; "*"]%char).

Definition is_hyphen (c : ascii) : bool := bool_decide (c = hyphen).

(** [str.lower] on one code point below U+0100: the letters A..Z and the
    capital letters of Latin-1 (U+00C0..U+00DE without the sign U+00D7). *)
Definition lower (c : ascii) : ascii :=
  let n := code c in
  if ((65 <=? n) && (n <=? 90))
     || ((192 <=? n) && (n <=? 222) && negb (n =? 215))
  then ascii_of_nat (n + 32) else c.

End Char.

(** ** The string operations [sanitize_filename] is made of *)

Section StringOps.

Variable p : ascii → bool.

(** [re.sub(r'X+', '-', s)] for a character class [X]: every maximal run
    of characters of the class becomes one hyphen.  [in_run] tells that the
    character before [s] was of the class. *)
Fixpoint sub_runs (in_run : bool) (s : list ascii) : list ascii :=
  match s with
  | [] => []
  | c :: r =>
      if p c
      then (if in_run then sub_runs true r else Char.hyphen :: sub_runs true r)
      else c :: sub_runs false r
  end.

(** [re.sub(r'[X]', '', s)]: the characters of the class are dropped. *)
Fixpoint remove_chars (s : list ascii) : list ascii :=
  match s with
  | [] => []
  | c :: r => if p c then remove_chars r else c :: remove_chars r
  end.

Fixpoint lstrip (s : list ascii) : list ascii :=
  match s with
  | [] => []
  | c :: r => if p c then lstrip r else s
  end.

Fixpoint rstrip (s : list ascii) : list ascii :=
  match s with
  | [] => []
  | c :: r =>
      match rstrip r with
      | [] => if p c then [] else [c]
      | r' => c :: r'
      end
  end.

(** [s.strip(chars)] and [s.strip()]: both ends are trimmed. *)
Definition strip (s : list ascii) : list ascii := lstrip (rstrip s).

End StringOps.

(** ** [sanitize_filename] *)

Definition sanitize_chars (name : list ascii) : list ascii :=
  let name := remove_chars Char.illegal name in
  let name := sub_runs Char.isspace false (strip Char.isspace name) in
  let name := sub_runs Char.is_hyphen false name in
  let name := strip Char.is_hyphen name in
  take 100 (map Char.lower name).

Definition sanitize_filename (name : string) : string :=
  string_of_list_ascii (sanitize_chars (list_ascii_of_string name)).

(** The sanitizer as the specification words it: strip the illegal
    characters, turn runs of whitespace into hyphens, merge runs of hyphens,
    trim hyphens, lower-case, truncate.  There is no whitespace trim. *)
Definition sanitize_spec_chars (title : list ascii) : list ascii :=
  let stripped := remove_chars Char.illegal title in
  let hyphenated := sub_runs Char.isspace false stripped in
  let merged := sub_runs Char.is_hyphen false hyphenated in
  let trimmed := strip Char.is_hyphen merged in
  take 100 (map Char.lower trimmed).

Definition sanitize_spec (title : string) : string :=
  string_of_list_ascii (sanitize_spec_chars (list_ascii_of_string title)).

(** What a sanitized title is, said without the steps of the code.  The
    definitions from here to [hyphens_apart] are no functions of
    [scraper.py]: they are what [sanitize_filename] is measured against.  A
    separator is a whitespace character or a hyphen; the words of a title are
    its maximal runs of characters that are no separators.  [word] holds the
    characters of the word that [s] continues. *)
Definition separator (c : ascii) : bool := Char.isspace c || Char.is_hyphen c.

Fixpoint words_go (word : list ascii) (s : list ascii) : list (list ascii) :=
  match s with
  | [] => match word with [] => [] | _ => [word] end
  | c :: r =>
      if separator c
      then match word with [] => words_go [] r | _ => word :: words_go [] r end
      else words_go (word ++ [c]) r
  end.

Definition title_words (s : list ascii) : list (list ascii) := words_go [] s.

(** The words with one hyphen between two of them. *)
Fixpoint join_hyphen (ws : list (list ascii)) : list ascii :=
  match ws with
  | [] => []
  | w :: rest =>
      match rest with
      | [] => w
      | _ => w ++ Char.hyphen :: join_hyphen rest
      end
  end.

(** A word: not empty, and no separator in it. *)
Definition word_ok (w : list ascii) : Prop :=
  w ≠ [] ∧ Forall (λ c, separator c = false) w.

(** No two hyphens of [s] stand next to each other. *)
Fixpoint hyphens_apart (s : list ascii) : bool :=
  match s with
  | [] => true
  | c :: r =>
      match r with
      | [] => true
      | d :: _ => negb (Char.is_hyphen c && Char.is_hyphen d) && hyphens_apart r
      end
  end.

(** ** [get_extension] *)

(** The pair [s.rpartition(c)] without its middle: what is before and what is
    after the last [c] of [s]; [None] when [s] has no [c]. *)
Fixpoint split_last (c : ascii) (s : list ascii) : option (list ascii * list ascii) :=
  match s with
  | [] => None
  | x :: r =>
      match split_last c r with
      | Some (before, after) => Some (x :: before, after)
      | None => if decide (x = c) then Some ([], r) else None
      end
  end.

(** [os.path.splitext(path)[1]] of [posixpath]: the suffix from the last dot
    of the last path component, unless only dots stand before that dot. *)
Definition splitext_ext (path : list ascii) : list ascii :=
  let name := match split_last "/" path with
              | Some (_, name) => name
              | None => path
              end in
  match split_last "." name with
  | Some (root, suffix) =>
      if forallb (λ c, bool_decide (c = "."%char)) root then []
      else "."%char :: suffix
  | None => []
  end.

Definition lower (s : string) : string :=
  string_of_list_ascii (map Char.lower (list_ascii_of_string s)).

Definition image_extensions : list string :=
  [".jpg"; ".jpeg"; ".png"; ".gif"; ".webp"; ".bmp"].

(** Lines 44 to 47 of [get_extension]: the extension for the path that
    [urlparse] found in the url. *)
Definition extension_of_path (path : string) : string :=
  let ext := lower (string_of_list_ascii (splitext_ext (list_ascii_of_string path))) in
  if bool_decide (ext ∈ image_extensions) then ext else ".jpg".


(** ** The data of a run *)

(** One entry of [games]: the dict with the keys ['title'] and ['image_url']. *)
Record Game := { title : string; image_url : string }.

(** One entry of [progress["failed"]]: the dict with the keys ["title"] and
    ["url"]. *)
Record Failure := { failed_title : string; failed_url : string }.

(** The dict of progress.json. *)
Record Progress := { downloaded : list string; failed : list Failure }.

Global Instance Game_eq_dec : EqDecision Game.
Proof. solve_decision. Defined.
Global Instance Failure_eq_dec : EqDecision Failure.
Proof. solve_decision. Defined.
Global Instance Progress_eq_dec : EqDecision Progress.
Proof. solve_decision. Defined.

(** ** The world outside the repository *)

(** What [page.request.get(url)] and [response.body()] do: the request raises,
    or answers with a status, and then reading the body returns or raises. *)
Inductive Reply :=
  | RequestRaised
  | Response (status : nat) (body_read : bool).

(** What opening [filepath] for writing and writing the content do.  After
    [WriteRaised] the file exists: [open] created it. *)
Inductive WriteResult := Written | OpenRaised | WriteRaised.

Global Instance WriteResult_eq_dec : EqDecision WriteResult.
Proof. solve_decision. Defined.

Record World := {
  (** [urlparse(url).path] of [urllib.parse] *)
  url_path : string → string;
  (** the request for the [i]-th game of [all_games] *)
  request_get : nat → string → Reply;
  (** the write of the file of the [i]-th game *)
  file_write : nat → string → WriteResult;
  (** whether the calls of [filepath.exists()] for the [i]-th game return;
      [false] when one raises (the directory cannot be read) *)
  path_check : nat → bool;
  (** whether the call of [save_progress] that follows [n] earlier ones
      returns; [false] when it raises *)
  progress_write : nat → bool
}.

(** What a run does that can be observed from outside, in order. *)
Inductive Event :=
  | Get (url : string)
  | PrintHttpFailure (url : string) (status : nat)
  | PrintError (url : string)
  | Save (record : Progress)
  | Sleep.

Global Instance Event_eq_dec : EqDecision Event.
Proof. solve_decision. Defined.

(** [get_extension(url)] in [main], where the url is one that [urljoin]
    returned and [urlparse] returns for it, with the path [url_path w url]. *)
Definition get_extension (w : World) (url : string) : string :=
  let path := url_path w url in
  extension_of_path path.

(** [response.ok] of Playwright: the status is in 200..299. *)
Definition response_ok (status : nat) : bool := (200 <=? status) && (status <=? 299).

(** ** [load_progress] and the deduplication of [extract_games_from_page] *)

(** [stored] is the content of progress.json, [None] when the file is absent. *)
Definition load_progress (stored : option Progress) : Progress :=
  match stored with
  | Some record => record
  | None => {| downloaded := []; failed := [] |}
  end.

(** The loop over [games] at the end of [extract_games_from_page]. *)
Fixpoint unique_from (seen_urls : gset string) (games : list Game) : list Game :=
  match games with
  | [] => []
  | game :: rest =>
      if decide (image_url game ∈ seen_urls)
      then unique_from seen_urls rest
      else game :: unique_from ({[image_url game]} ∪ seen_urls) rest
  end.

Definition unique_games (games : list Game) : list Game := unique_from ∅ games.

(** Deduplication as the specification words it: an item is kept when no item
    before it has its url. *)
Fixpoint first_occurrences (before games : list Game) : list Game :=
  match games with
  | [] => []
  | game :: rest =>
      if bool_decide (image_url game ∈ image_url <$> before)
      then first_occurrences (before ++ [game]) rest
      else game :: first_occurrences (before ++ [game]) rest
  end.

(** ** The file name of a game *)

(** The names tried for a stem: the plain one, then [-1], [-2], ... *)
Definition candidate (safe_name ext : string) (counter : nat) : string :=
  match counter with
  | 0 => safe_name +:+ ext
  | S _ => safe_name +:+ "-" +:+ pretty counter +:+ ext
  end.

(** The [while filepath.exists()] loop: [filepath] is the name under test,
    [counter] the number the next name takes.  [fuel] bounds the number of
    further names. *)
Fixpoint probe (files : gset string) (safe_name ext : string)
    (fuel counter : nat) (filepath : string) : option string :=
  if decide (filepath ∈ files) then
    match fuel with
    | 0 => None
    | S fuel => probe files safe_name ext fuel (S counter) (candidate safe_name ext counter)
    end
  else Some filepath.

(** [files] holds the names of the files of [OUTPUT_DIR].  It takes at most
    [size files] further names to leave it (see [probe_total]). *)
Definition unique_path (files : gset string) (safe_name ext : string) : string :=
  default (safe_name +:+ ext)
    (probe files safe_name ext (size files) 1 (safe_name +:+ ext)).

(** ** [download_image] *)

(** The result, the files of [OUTPUT_DIR] afterwards, and the events. *)
Definition download_image (w : World) (i : nat) (url filepath : string)
    (files : gset string) : bool * gset string * list Event :=
  match request_get w i url with
  | RequestRaised => (false, files, [Get url; PrintError url])
  | Response status body_read =>
      if response_ok status then
        if body_read then
          match file_write w i filepath with
          | Written => (true, {[filepath]} ∪ files, [Get url])
          | OpenRaised => (false, files, [Get url; PrintError url])
          | WriteRaised => (false, {[filepath]} ∪ files, [Get url; PrintError url])
          end
        else (false, files, [Get url; PrintError url])
      else (false, files, [Get url; PrintHttpFailure url status])
  end.

(** ** The download loop of [main] *)

Record State := {
  progress : Progress;
  files : gset string;
  downloaded_count : nat;
  skipped_count : nat;
  failed_count : nat;
  trace : list Event
}.

(** How a piece of the loop ends: it goes on, or an exception leaves it. *)
Inductive Outcome :=
  | Normal (st : State)
  | Raised (st : State).

Definition state_of (o : Outcome) : State :=
  match o with Normal st | Raised st => st end.

Definition skip (st : State) : State :=
  {| progress := progress st; files := files st;
     downloaded_count := downloaded_count st;
     skipped_count := skipped_count st + 1;
     failed_count := failed_count st;
     trace := trace st |}.

(** The file name of [game] in [OUTPUT_DIR]: from [safe_name = ...] to the end
    of the [while] loop. *)
Definition game_path (w : World) (files : gset string) (game : Game) : string :=
  let safe_name := sanitize_filename (title game) in
  let ext := get_extension w (image_url game) in
  unique_path files safe_name ext.

(** From [safe_name = ...] to the end of the [if success] statement. *)
Definition attempt (w : World) (i : nat) (game : Game) (st : State) : State :=
  let filepath := game_path w (files st) game in
  let '(success, files', events) :=
    download_image w i (image_url game) filepath (files st) in
  if success : bool then
    {| progress := {| downloaded := downloaded (progress st) ++ [image_url game];
                      failed := failed (progress st) |};
       files := files';
       downloaded_count := downloaded_count st + 1;
       skipped_count := skipped_count st;
       failed_count := failed_count st;
       trace := trace st ++ events |}
  else
    {| progress := {| downloaded := downloaded (progress st);
                      failed := failed (progress st)
                                  ++ [{| failed_title := title game;
                                         failed_url := image_url game |}] |};
       files := files';
       downloaded_count := downloaded_count st;
       skipped_count := skipped_count st;
       failed_count := failed_count st + 1;
       trace := trace st ++ events |}.

Definition add_event (e : Event) (st : State) : State :=
  {| progress := progress st; files := files st;
     downloaded_count := downloaded_count st;
     skipped_count := skipped_count st;
     failed_count := failed_count st;
     trace := trace st ++ [e] |}.

(** The records written by the calls of [save_progress] that returned. *)
Definition saves (events : list Event) : list Progress :=
  omap (λ e, match e with Save record => Some record | _ => None end) events.

(** The urls requested, in order. *)
Definition gets (events : list Event) : list string :=
  omap (λ e, match e with Get url => Some url | _ => None end) events.

(** The number of rate-limit delays. *)
Definition sleeps (events : list Event) : nat :=
  length (filter (λ e, e = Sleep) events).

(** The lines [download_image] prints for [url]. *)
Definition failure_line (url : string) (e : Event) : Prop :=
  e = PrintError url ∨ ∃ status, e = PrintHttpFailure url status.

(** [q] extends [p]: both lists of [p] are kept and only appended to. *)
Definition progress_le (p q : Progress) : Prop :=
  downloaded p `prefix_of` downloaded q ∧ failed p `prefix_of` failed q.

(** Each record extends the ones before it. *)
Definition ascending (records : list Progress) : Prop :=
  ∀ j k p q, j ≤ k → records !! j = Some p → records !! k = Some q →
             progress_le p q.

(** The number of outcomes a record holds. *)
Definition entries (p : Progress) : nat :=
  length (downloaded p) + length (failed p).

(** The attempts made so far: successes and failures, not skips. *)
Definition resolved (st : State) : nat := downloaded_count st + failed_count st.

(** [save_progress(progress)]. *)
Definition save_progress (w : World) (st : State) : Outcome :=
  if progress_write w (length (saves (trace st)))
  then Normal (add_event (Save (progress st)) st)
  else Raised st.

(** The periodic save. *)
Definition checkpoint (w : World) (st : State) : Outcome :=
  if (downloaded_count st + failed_count st) mod 10 =? 0
  then save_progress w st
  else Normal st.

(** The body of [for i, game in enumerate(all_games, 1)]. *)
Definition loop_body (w : World) (downloaded_set : gset string) (i : nat)
    (game : Game) (st : State) : Outcome :=
  if decide (image_url game ∈ downloaded_set) then Normal (skip st)
  else if path_check w i then
    match checkpoint w (attempt w i game st) with
    | Normal st' => Normal (add_event Sleep st')
    | Raised st' => Raised st'
    end
  else Raised st.

Fixpoint loop (w : World) (downloaded_set : gset string) (i : nat)
    (games : list Game) (st : State) : Outcome :=
  match games with
  | [] => Normal st
  | game :: rest =>
      match loop_body w downloaded_set i game st with
      | Normal st' => loop w downloaded_set (S i) rest st'
      | Raised st' => Raised st'
      end
  end.

(** ** What the proofs say about the loop *)

(** The two ways an attempt changes the state. *)
Inductive Attempted (game : Game) (st st1 : State) : Prop :=
  | attempted_success :
      progress st1 = {| downloaded := downloaded (progress st) ++ [image_url game];
                        failed := failed (progress st) |} →
      downloaded_count st1 = downloaded_count st + 1 →
      failed_count st1 = failed_count st →
      skipped_count st1 = skipped_count st →
      trace st1 = trace st ++ [Get (image_url game)] →
      Attempted game st st1
  | attempted_failure e :
      progress st1 = {| downloaded := downloaded (progress st);
                        failed := failed (progress st)
                                    ++ [{| failed_title := title game;
                                           failed_url := image_url game |}] |} →
      downloaded_count st1 = downloaded_count st →
      failed_count st1 = failed_count st + 1 →
      skipped_count st1 = skipped_count st →
      trace st1 = trace st ++ [Get (image_url game); e] →
      failure_line (image_url game) e →
      Attempted game st st1.

(** The five ways the body of the loop ends. *)
Inductive Stepped (downloaded_set : gset string) (game : Game) (st : State)
    : Outcome → Prop :=
  | stepped_skip :
      image_url game ∈ downloaded_set →
      Stepped downloaded_set game st (Normal (skip st))
  | stepped_crashed :
      image_url game ∉ downloaded_set →
      Stepped downloaded_set game st (Raised st)
  | stepped_quiet st1 :
      image_url game ∉ downloaded_set → Attempted game st st1 →
      resolved st1 mod 10 ≠ 0 →
      Stepped downloaded_set game st (Normal (add_event Sleep st1))
  | stepped_saved st1 :
      image_url game ∉ downloaded_set → Attempted game st st1 →
      resolved st1 mod 10 = 0 →
      Stepped downloaded_set game st
        (Normal (add_event Sleep (add_event (Save (progress st1)) st1)))
  | stepped_raised st1 :
      image_url game ∉ downloaded_set → Attempted game st st1 →
      resolved st1 mod 10 = 0 →
      Stepped downloaded_set game st (Raised st1).

(** The saves of a state, seen from the record [p0] the run loaded: every
    saved record lies between [p0] and the record in memory, and each extends
    the ones saved before. *)
Definition Growing (p0 : Progress) (st : State) : Prop :=
  progress_le p0 (progress st)
  ∧ (∀ p, p ∈ saves (trace st) → progress_le p0 p ∧ progress_le p (progress st))
  ∧ ascending (saves (trace st)).

(** The counters and the trace at the end of a loop that was not left. *)
Record Counted (ds : gset string) (games : list Game) (st st' : State) : Prop := {
  counted_skipped :
    skipped_count st'
    = skipped_count st + length (filter (λ g, image_url g ∈ ds) games);
  counted_resolved :
    resolved st' = resolved st + length (filter (λ g, image_url g ∉ ds) games);
  counted_gets :
    gets (trace st')
    = gets (trace st) ++ (image_url <$> filter (λ g, image_url g ∉ ds) games);
  counted_sleeps :
    sleeps (trace st')
    = sleeps (trace st) + length (filter (λ g, image_url g ∉ ds) games)
}.

(** Between two games: the record holds one entry per attempt, and the saves
    so far were made at the attempts 10, 20, ... *)
Definition Cadence (p0 : Progress) (st : State) : Prop :=
  entries (progress st) = entries p0 + resolved st
  ∧ entries <$> saves (trace st)
    = (λ k, entries p0 + 10 * k) <$> seq 1 (resolved st / 10).

(** The trace does not end with a save. *)
Definition Unsaved (st : State) : Prop :=
  ∀ record, last (trace st) ≠ Some (Save record).

(** ** [main], from the extraction of the games on *)

(** How a run ends: the [return] when no game is found, the end of [main], or
    an exception raised in the loop or by the final save. *)
Inductive Exit := NoGames | Complete | Error.

Global Instance Exit_eq_dec : EqDecision Exit.
Proof. solve_decision. Defined.

Record Run := {
  exit : Exit;
  (** [len(all_games)] *)
  total : nat;
  final : State
}.

Definition initial (record : Progress) (files : gset string) : State :=
  {| progress := record; files := files;
     downloaded_count := 0; skipped_count := 0; failed_count := 0;
     trace := [] |}.

(** [stored] is progress.json, [files] the content of [OUTPUT_DIR] and [games]
    the list that [extract_games_from_page] builds from the images of the
    page, before it removes the duplicates. *)
Definition main (w : World) (stored : option Progress) (files : gset string)
    (games : list Game) : Run :=
  let progress := load_progress stored in
  let downloaded_set : gset string := list_to_set (downloaded progress) in
  let all_games := unique_games games in
  match all_games with
  | [] => {| exit := NoGames; total := 0; final := initial progress files |}
  | _ =>
      match loop w downloaded_set 1 all_games (initial progress files) with
      | Raised st => {| exit := Error; total := length all_games; final := st |}
      | Normal st =>
          match save_progress w st with
          | Normal st' => {| exit := Complete; total := length all_games; final := st' |}
          | Raised st' => {| exit := Error; total := length all_games; final := st' |}
          end
      end
  end.

(** progress.json after a run: what the last save that returned wrote. *)
Definition stored_after (stored : option Progress) (r : Run) : option Progress :=
  match last (saves (trace (final r))) with
  | Some record => Some record
  | None => stored
  end.

(** ** A world for the examples *)

Module Urllib.

(** The characters of [s] before the first one of the class [stop]. *)
Fixpoint take_until (stop : ascii → bool) (s : list ascii) : list ascii :=
  match s with
  | [] => []
  | c :: r => if stop c then [] else c :: take_until stop r
  end.

Fixpoint drop_until (stop : ascii → bool) (s : list ascii) : list ascii :=
  match s with
  | [] => []
  | c :: r => if stop c then s else drop_until stop r
  end.

Definition one_of (cs : list ascii) (c : ascii) : bool := bool_decide (c ∈ cs).

(** [urlparse(url).path] for an http or https url of the shape
    [scheme://netloc/path;params?query#fragment]: the part from the first
    slash after the netloc to the query or fragment, and of that what stands
    before the first [;] of the last component ([_splitparams]). *)
Definition path (url : string) : string :=
  let s := list_ascii_of_string url in
  let after_scheme := drop 1 (drop_until (one_of [":"%char]) s) in
  let after_netloc := drop_until (one_of ["/"; "?"; "#"]%char) (drop 2 after_scheme) in
  let full := take_until (one_of ["?"; "#"]%char) after_netloc in
  string_of_list_ascii
    match split_last "/" full with
    | Some (before, name) =>
        before ++ "/"%char :: take_until (one_of [";"%char]) name
    | None => take_until (one_of [";"%char]) full
    end.

End Urllib.

(** Every request is answered with 200 and every write succeeds. *)
Definition fair_world : World :=
  {| url_path := Urllib.path;
     request_get := λ _ _, Response 200 true;
     file_write := λ _ _, Written;
     path_check := λ _, true;
     progress_write := λ _, true |}.

(** Every request is answered with 404. *)
Definition missing_world : World :=
  {| url_path := Urllib.path;
     request_get := λ _ _, Response 404 true;
     file_write := λ _ _, Written;
     path_check := λ _, true;
     progress_write := λ _, true |}.

(** The first [n] games of a page: "Game 1", "Game 2", ... *)
Definition example_games (n : nat) : list Game :=
  (λ k, {| title := "Game " +:+ pretty k;
           image_url := "https://rec0ded88.com/covers/game-" +:+ pretty k +:+ ".png" |})
    <$> seq 1 n.

(** The directory cannot be read when the second game is reached. *)
Definition unreadable_world : World :=
  {| url_path := Urllib.path;
     request_get := λ _ _, Response 200 true;
     file_write := λ _ _, Written;
     path_check := λ i, bool_decide (i ≠ 2);
     progress_write := λ _, true |}.

(** ** The images of the page: [extract_games_from_page] *)

(** One [img] tag with the attributes the scan reads; [None] when the tag has
    not got the attribute. *)
Record Image := {
  src : option string;
  data_src : option string;
  alt : option string
}.

(** [bool(s)] of a [str]: the empty string is false. *)
Definition truthy (s : string) : bool := negb (String.eqb s "").

(** [img.get('src', '') or img.get('data-src', '')] *)
Definition image_src (img : Image) : string :=
  let value := default "" (src img) in
  if truthy value then value else default "" (data_src img).

Fixpoint starts_with (prefix s : list ascii) : bool :=
  match prefix, s with
  | [], _ => true
  | _ :: _, [] => false
  | a :: prefix, b :: s => bool_decide (a = b) && starts_with prefix s
  end.

(** [needle in hay] of two [str]. *)
Fixpoint contains_chars (needle hay : list ascii) : bool :=
  starts_with needle hay
  || match hay with
     | [] => false
     | _ :: rest => contains_chars needle rest
     end.

Definition contains (needle hay : string) : bool :=
  contains_chars (list_ascii_of_string needle) (list_ascii_of_string hay).

(** [s.replace(old, new)] for a non-empty [old]: the occurrences of [old]
    are replaced from left to right, and the search goes on behind each one.
    [skip] counts the characters of an occurrence still to be passed. *)
Fixpoint replace_from (old new : list ascii) (skip : nat) (s : list ascii)
    : list ascii :=
  match s with
  | [] => []
  | c :: rest =>
      match skip with
      | S skip => replace_from old new skip rest
      | 0 =>
          if starts_with old s
          then new ++ replace_from old new (length old - 1) rest
          else c :: replace_from old new 0 rest
      end
  end.

Definition replace (old new : string) (s : list ascii) : list ascii :=
  replace_from (list_ascii_of_string old) (list_ascii_of_string new) 0 s.

(** The title made from the file name of [src], for an image without [alt]. *)
Definition fallback_title (src : string) : string :=
  let chars := list_ascii_of_string src in
  let filename := match split_last "/" chars with
                  | Some (_, filename) => filename
                  | None => chars
                  end in
  string_of_list_ascii
    (replace "-" " " (replace "-USA" "" (replace ".jpg" "" (replace ".png" "" filename)))).

(** The body of [for img in images]; [urljoin] stands for
    [urljoin(BASE_URL, ·)] of [urllib.parse]. *)
Definition game_of_image (urljoin : string → string) (img : Image) : option Game :=
  let src := image_src img in
  if negb (truthy src) then None
  else if negb (contains "NES_Covers" src) then None
  else
    let title := default "" (alt img) in
    let title := if truthy title then title else fallback_title src in
    if truthy src && truthy title
    then Some {| title := title; image_url := urljoin src |}
    else None.

(** The list [games], before the duplicates are removed. *)
Definition games_of_images (urljoin : string → string) (images : list Image)
    : list Game :=
  omap (game_of_image urljoin) images.

(** [images] is what [soup.find_all('img')] returns. *)
Definition extract_games_from_page (urljoin : string → string)
    (images : list Image) : list Game :=
  unique_games (games_of_images urljoin images).

(** ** The wait for the Cloudflare check in [main] *)

(** The test that ends the wait. *)
Definition page_loaded (page_content : string) : bool :=
  contains "Play NES Games" page_content && contains "10-Yard" page_content.

(** The [while waited < max_wait] loop: [contents k] is what [page.content()]
    returns at the [k]-th round, from 0.  The second test of the body only
    prints.  The result is [waited] at the end of the loop. *)
Fixpoint poll (contents : nat → string) (fuel k waited : nat) : option nat :=
  if waited <? 30 then
    match fuel with
    | 0 => None
    | S fuel =>
        let waited := waited + 2 in
        if page_loaded (contents k) then Some waited
        else poll contents fuel (S k) waited
    end
  else Some waited.

(** Fifteen rounds are enough (see [wait_for_page_bounded]). *)
Definition wait_for_page (contents : nat → string) : option nat :=
  poll contents 15 0 0.

(** ** [scroll_to_load_all] *)



(** * Theorems *)

Example sanitize_mega_man : sanitize_filename "Mega Man" = "mega-man".
Proof. reflexivity. Qed.

Example sanitize_mega_man_noisy : sanitize_filename "mega   man!!" = "mega-man!!".
Proof. vm_compute. reflexivity. Qed.

Example extension_png :
  get_extension fair_world "https://rec0ded88.com/covers/Mega-Man-USA.png" = ".png".
Proof. vm_compute. reflexivity. Qed.

Example extension_svg :
  get_extension fair_world "https://rec0ded88.com/a.b/logo.SVG?x=1.png" = ".jpg".
Proof. vm_compute. reflexivity. Qed.

(** ** The sanitizer *)

Section RstripLemmas.

Variable p : ascii → bool.

Lemma rstrip_cons_eq c s :
  p c = false → rstrip p (c :: s) = c :: rstrip p s.
Proof. simpl. intros ->. by destruct (rstrip p s). Qed.

Lemma rstrip_cons_ne c s :
  rstrip p s ≠ [] → rstrip p (c :: s) = c :: rstrip p s.
Proof. simpl. by destruct (rstrip p s). Qed.

Lemma rstrip_cons_nil c s :
  p c = true → rstrip p s = [] → rstrip p (c :: s) = [].
Proof. simpl. by intros -> ->. Qed.

Lemma rstrip_cons_congr c s t :
  rstrip p s = rstrip p t → rstrip p (c :: s) = rstrip p (c :: t).
Proof. simpl. by intros ->. Qed.

End RstripLemmas.

Section StripLemmas.

Variables p q : ascii → bool.
Hypothesis q_hyphen : q Char.hyphen = true.

Lemma sub_runs_flag s :
  sub_runs p false s = sub_runs p true s
  ∨ sub_runs p false s = Char.hyphen :: sub_runs p true s.
Proof. destruct s as [|c r]; simpl; [by left|]. destruct (p c); auto. Qed.

Lemma strip_hyphen_cons s : strip q (Char.hyphen :: s) = strip q s.
Proof.
  unfold strip. simpl. destruct (rstrip q s) as [|c r] eqn:E.
  - by rewrite q_hyphen.
  - simpl. by rewrite q_hyphen.
Qed.

(** A hyphen put before a string does not survive the merge and the trim. *)
Lemma strip_sub_runs_hyphen s :
  strip q (sub_runs q false (Char.hyphen :: s)) = strip q (sub_runs q false s).
Proof.
  simpl. rewrite q_hyphen, strip_hyphen_cons.
  destruct s as [|c r]; simpl; [done|].
  destruct (q c); [|done]. by rewrite strip_hyphen_cons.
Qed.

(** Whitespace at the start: removing it first changes nothing. *)
Lemma lstrip_absorbed s :
  strip q (sub_runs q false (sub_runs p false (lstrip p s)))
  = strip q (sub_runs q false (sub_runs p false s)).
Proof.
  induction s as [|c r IH]; [done|].
  cbn [lstrip]. destruct (p c) eqn:Hc; [|done].
  rewrite IH.
  change (sub_runs p false (c :: r))
    with (if p c then Char.hyphen :: sub_runs p true r
          else c :: sub_runs p false r).
  rewrite Hc, strip_sub_runs_hyphen.
  destruct (sub_runs_flag r) as [-> | ->]; [done|].
  by rewrite strip_sub_runs_hyphen.
Qed.

(** Whitespace at the end: removing it first changes nothing, whatever
    stands before. *)
Lemma rstrip_absorbed s : ∀ b b',
  rstrip q (sub_runs q b' (sub_runs p b (rstrip p s)))
  = rstrip q (sub_runs q b' (sub_runs p b s)).
Proof.
  induction s as [|c r IH]; intros b b'; [done|].
  destruct (p c) eqn:Hc.
  - destruct (decide (rstrip p r = [])) as [Hr|Hr].
    + rewrite rstrip_cons_nil by done.
      assert (Hnil : ∀ b'', rstrip q (sub_runs q b'' (sub_runs p true r)) = []).
      { intros b''. rewrite <- IH, Hr. done. }
      cbn [sub_runs]. rewrite Hc.
      destruct b; [by rewrite Hnil|].
      cbn [sub_runs]. rewrite q_hyphen.
      destruct b'; [by rewrite Hnil|].
      by rewrite rstrip_cons_nil.
    + rewrite rstrip_cons_ne by done. cbn [sub_runs]. rewrite Hc.
      destruct b; [apply IH|].
      cbn [sub_runs]. rewrite q_hyphen.
      destruct b'; [apply IH|]. apply rstrip_cons_congr, IH.
  - rewrite rstrip_cons_eq by done. cbn [sub_runs]. rewrite Hc.
    cbn [sub_runs]. destruct (q c).
    + destruct b'; [apply IH|]. apply rstrip_cons_congr, IH.
    + apply rstrip_cons_congr, IH.
Qed.

Lemma strip_absorbed s :
  strip q (sub_runs q false (sub_runs p false (strip p s)))
  = strip q (sub_runs q false (sub_runs p false s)).
Proof.
  unfold strip at 2. rewrite lstrip_absorbed.
  unfold strip. by rewrite rstrip_absorbed.
Qed.

End StripLemmas.

Lemma length_string_of_list (l : list ascii) :
  String.length (string_of_list_ascii l) = length l.
Proof. induction l as [|c l IH]; simpl; [done|]. by rewrite IH. Qed.

Lemma sanitize_chars_spec name : sanitize_chars name = sanitize_spec_chars name.
Proof.
  unfold sanitize_chars, sanitize_spec_chars.
  by rewrite strip_absorbed.
Qed.

Lemma sanitize_chars_length name : length (sanitize_chars name) ≤ 100.
Proof. unfold sanitize_chars. rewrite length_take. lia. Qed.

(** The characters of a sanitized name. *)

Section ForallOps.

Variables (p : ascii → bool) (Q : ascii → Prop).

Lemma remove_chars_Forall s : Forall (λ c, p c = false) (remove_chars p s).
Proof.
  induction s as [|c r IH]; simpl; [constructor|].
  destruct (p c) eqn:Hc; [done | by constructor].
Qed.

Lemma sub_runs_Forall b s :
  Q Char.hyphen → Forall Q s → Forall Q (sub_runs p b s).
Proof.
  intros Hhyphen Hs. revert b.
  induction Hs as [|c r Hc _ IH]; intros b; simpl; [constructor|].
  destruct (p c); [destruct b|]; auto.
Qed.

Lemma sub_runs_clears b s :
  p Char.hyphen = false → Forall (λ c, p c = false) (sub_runs p b s).
Proof.
  intros Hhyphen. revert b.
  induction s as [|c r IH]; intros b; simpl; [constructor|].
  destruct (p c) eqn:Hc; [destruct b|]; auto.
Qed.

Lemma lstrip_Forall s : Forall Q s → Forall Q (lstrip p s).
Proof.
  induction 1 as [|c r Hc Hr IH]; simpl; [constructor|].
  destruct (p c); [done | by constructor].
Qed.

Lemma rstrip_Forall s : Forall Q s → Forall Q (rstrip p s).
Proof.
  induction 1 as [|c r Hc Hr IH]; simpl; [constructor|].
  destruct (rstrip p r) as [|c' r'].
  - destruct (p c); [constructor | by constructor].
  - by constructor.
Qed.

Lemma strip_Forall s : Forall Q s → Forall Q (strip p s).
Proof. intros. by apply lstrip_Forall, rstrip_Forall. Qed.

Lemma lstrip_head s c : head (lstrip p s) = Some c → p c = false.
Proof.
  induction s as [|d r IH]; simpl; [done|].
  destruct (p d) eqn:Hd; [done|]. by intros [= <-].
Qed.

End ForallOps.

Lemma lower_classes c :
  Char.illegal (Char.lower c) = Char.illegal c
  ∧ Char.isspace (Char.lower c) = Char.isspace c
  ∧ Char.is_hyphen (Char.lower c) = Char.is_hyphen c
  ∧ Char.lower (Char.lower c) = Char.lower c.
Proof. by destruct c as [[] [] [] [] [] [] [] []]; vm_compute. Qed.

Lemma sanitize_chars_classes name :
  Forall (λ c, Char.illegal c = false ∧ Char.isspace c = false
               ∧ Char.lower c = c)
         (sanitize_chars name).
Proof.
  unfold sanitize_chars.
  set (legal := remove_chars Char.illegal name).
  set (spaced := sub_runs Char.isspace false (strip Char.isspace legal)).
  set (trimmed := strip Char.is_hyphen (sub_runs Char.is_hyphen false spaced)).
  assert (Hlegal : Forall (λ c, Char.illegal c = false) trimmed).
  { apply strip_Forall, sub_runs_Forall; [done|].
    apply sub_runs_Forall; [done|]. apply strip_Forall, remove_chars_Forall. }
  assert (Hspace : Forall (λ c, Char.isspace c = false) trimmed).
  { apply strip_Forall, sub_runs_Forall; [done|]. by apply sub_runs_clears. }
  apply Forall_forall. intros c Hc.
  eapply elem_of_sublist in Hc; [|apply sublist_take].
  apply list_elem_of_In, in_map_iff in Hc as (d & <- & Hd%list_elem_of_In).
  destruct (lower_classes d) as (-> & -> & _ & ->).
  rewrite Forall_forall in Hlegal, Hspace. auto.
Qed.

(** ** The sanitizer as a whole: words joined by hyphens *)

Lemma remove_chars_filter (p : ascii → bool) (s : list ascii) :
  remove_chars p s = filter (λ c, p c = false) s.
Proof.
  induction s as [|c r IH]; [done|]. cbn [remove_chars].
  destruct (p c) eqn:Hc.
  - by rewrite filter_cons_False by (by rewrite Hc).
  - rewrite filter_cons_True by done. by f_equal.
Qed.

Lemma separator_false c :
  separator c = false ↔ Char.isspace c = false ∧ Char.is_hyphen c = false.
Proof. unfold separator. apply orb_false_iff. Qed.

Lemma isspace_not_hyphen c : Char.isspace c = true → Char.is_hyphen c = false.
Proof.
  intros Hc. unfold Char.is_hyphen. case_bool_decide as Hh; [|done].
  subst c. by vm_compute in Hc.
Qed.

(** The two substitutions in a row are one: every maximal run of separators
    becomes one hyphen.  [b'] tells that a whitespace character stood before,
    and [b] that a hyphen was put out last. *)
Lemma sub_runs_merge s : ∀ b b',
  (b' = true → b = true) →
  sub_runs Char.is_hyphen b (sub_runs Char.isspace b' s) = sub_runs separator b s.
Proof.
  induction s as [|c r IH]; intros b b' Hb; [done|].
  cbn [sub_runs]. unfold separator at 1.
  destruct (Char.isspace c) eqn:Hspace; cbn [orb].
  - destruct b'.
    + rewrite Hb by done. by apply IH.
    + cbn [sub_runs].
      change (Char.is_hyphen Char.hyphen) with true. cbn match.
      destruct b; rewrite IH; done.
  - cbn [sub_runs]. destruct (Char.is_hyphen c) eqn:Hhyphen.
    + destruct b; rewrite IH; done.
    + by rewrite IH.
Qed.

Section WordLemmas.

Variable p : ascii → bool.

Lemma sub_runs_word word s :
  Forall (λ c, p c = false) word →
  sub_runs p false (word ++ s) = word ++ sub_runs p false s.
Proof.
  induction 1 as [|c word Hc _ IH]; [done|].
  cbn [app sub_runs]. by rewrite Hc, IH.
Qed.

Lemma rstrip_word word s :
  Forall (λ c, p c = false) word →
  rstrip p (word ++ s) = word ++ rstrip p s.
Proof.
  induction 1 as [|c word Hc _ IH]; [done|].
  cbn [app]. by rewrite rstrip_cons_eq, IH.
Qed.

Lemma lstrip_clean s :
  (∀ c, head s = Some c → p c = false) → lstrip p s = s.
Proof.
  destruct s as [|c r]; [done|]. intros Hhead. cbn [lstrip].
  by rewrite Hhead.
Qed.

(** After a separator the output starts with a character that is none. *)
Lemma sub_runs_true_head s c :
  head (sub_runs p true s) = Some c → p c = false.
Proof.
  induction s as [|d r IH]; [done|]. cbn [sub_runs].
  destruct (p d) eqn:Hd; [done|]. by intros [= <-].
Qed.

Lemma rstrip_head s c : head (rstrip p s) = Some c → head s = Some c.
Proof.
  destruct s as [|d r]; [done|]. cbn [rstrip].
  destruct (rstrip p r); [destruct (p d)|]; done.
Qed.

End WordLemmas.

Lemma strip_flag (p q : ascii → bool) s :
  q Char.hyphen = true →
  strip q (sub_runs p false s) = strip q (sub_runs p true s).
Proof.
  intros Hq. destruct (sub_runs_flag p s) as [-> | ->]; [done|].
  by apply strip_hyphen_cons.
Qed.

Lemma words_go_ok s : ∀ word,
  Forall (λ c, separator c = false) word → Forall word_ok (words_go word s).
Proof.
  induction s as [|c r IH]; intros word Hword; cbn [words_go].
  - destruct word; [constructor|]. constructor; [done | constructor].
  - destruct (separator c) eqn:Hc.
    + destruct word as [|a word]; [by apply IH|].
      constructor; [done | by apply IH].
    + apply IH, Forall_app. by split; [|repeat constructor].
Qed.

Lemma join_hyphen_nil ws : Forall word_ok ws → join_hyphen ws = [] → ws = [].
Proof.
  destruct 1 as [|w rest [Hw _] _]; [done|]. cbn [join_hyphen].
  destruct rest; [done|]. by destruct w.
Qed.

Lemma word_no_hyphen w :
  Forall (λ c, separator c = false) w → Forall (λ c, Char.is_hyphen c = false) w.
Proof.
  intros Hw. eapply Forall_impl; [exact Hw|].
  by intros c [_ ?]%separator_false.
Qed.

(** Merged and trimmed, a string is its words joined by hyphens. *)
Lemma strip_words s : ∀ word,
  Forall (λ c, separator c = false) word →
  strip Char.is_hyphen (sub_runs separator false (word ++ s))
  = join_hyphen (words_go word s).
Proof.
  pose proof word_no_hyphen as Hsep.
  induction s as [|c r IH]; intros word Hword.
  - rewrite app_nil_r. cbn [words_go].
    rewrite <- (app_nil_r word) at 1. rewrite sub_runs_word by done.
    cbn [sub_runs]. unfold strip.
    rewrite rstrip_word by auto. cbn [rstrip]. rewrite app_nil_r.
    destruct word as [|a word]; [done|]. cbn [join_hyphen].
    apply lstrip_clean. intros ? [= <-].
    apply Forall_cons in Hword as [[_ ?]%separator_false _]. done.
  - cbn [words_go]. destruct (separator c) eqn:Hc.
    + rewrite sub_runs_word by done. cbn [sub_runs]. rewrite Hc.
      set (X := sub_runs separator true r).
      assert (HX : rstrip Char.is_hyphen X = join_hyphen (words_go [] r)).
      { rewrite <- (IH []) by constructor. cbn [app].
        rewrite strip_flag by done. unfold strip. symmetry.
        apply lstrip_clean. intros d Hd%rstrip_head.
        apply sub_runs_true_head in Hd. by apply separator_false in Hd as [_ ?]. }
      destruct word as [|a word].
      * cbn [app]. rewrite strip_hyphen_cons by done.
        rewrite <- (IH []) by constructor. cbn [app]. by rewrite strip_flag.
      * unfold strip. rewrite rstrip_word by auto.
        rewrite lstrip_clean.
        2:{ intros ? [= <-].
            apply Forall_cons in Hword as [[_ ?]%separator_false _]. done. }
        pose proof (words_go_ok r [] ltac:(constructor)) as Hok.
        destruct (words_go [] r) as [|t T] eqn:HT.
        -- cbn [join_hyphen] in *. by rewrite rstrip_cons_nil, app_nil_r.
        -- rewrite rstrip_cons_ne.
           2:{ rewrite HX. intros Hnil. by apply join_hyphen_nil in Hnil. }
           by rewrite HX.
    + rewrite <- IH by (apply Forall_app; by split; [|repeat constructor]).
      by rewrite <- app_assoc.
Qed.

Lemma sanitize_chars_words name :
  sanitize_chars name
  = take 100 (map Char.lower (join_hyphen (title_words
      (filter (λ c, Char.illegal c = false) name)))).
Proof.
  rewrite sanitize_chars_spec. unfold sanitize_spec_chars, title_words.
  rewrite sub_runs_merge by done.
  rewrite <- strip_words by constructor. cbn [app].
  by rewrite remove_chars_filter.
Qed.

(** The shape of the joined words: no hyphen at an end, no two in a row. *)
Lemma hyphens_apart_word word s :
  Forall (λ c, Char.is_hyphen c = false) word →
  hyphens_apart (word ++ s) = hyphens_apart s.
Proof.
  induction 1 as [|c word Hc _ IH]; [done|].
  cbn [app hyphens_apart]. rewrite Hc, IH. cbn [andb negb].
  destruct (word ++ s) eqn:E; [|done].
  apply app_eq_nil in E as [_ ->]. done.
Qed.

Lemma join_hyphen_shape ws :
  Forall word_ok ws →
  (∀ c, head (join_hyphen ws) = Some c → Char.is_hyphen c = false)
  ∧ hyphens_apart (join_hyphen ws) = true
  ∧ (∀ c, last (join_hyphen ws) = Some c → Char.is_hyphen c = false).
Proof.
  pose proof word_no_hyphen as Hsep.
  induction 1 as [|w rest [Hne Hw] Hrest IH]; [done|].
  apply Hsep in Hw.
  cbn [join_hyphen]. destruct rest as [|w' rest'].
  - split_and!.
    + intros c Hc. rewrite Forall_forall in Hw. apply Hw.
      destruct w; [done|]. injection Hc as ->. by left.
    + rewrite <- (app_nil_r w). by rewrite hyphens_apart_word.
    + intros c Hc. rewrite Forall_forall in Hw. apply Hw.
      by apply last_Some_elem_of.
  - destruct IH as (Hhead & Hapart & Hlast).
    set (J := join_hyphen (w' :: rest')) in *.
    assert (HJ : J ≠ []).
    { intros Hnil. by apply join_hyphen_nil in Hnil. }
    split_and!.
    + intros c Hc. rewrite Forall_forall in Hw. apply Hw.
      destruct w; [done|]. injection Hc as ->. by left.
    + rewrite hyphens_apart_word by done. cbn [hyphens_apart].
      destruct J as [|d J']; [done|].
      rewrite (Hhead d) by done. by rewrite andb_false_r.
    + intros c. rewrite last_app, last_cons.
      destruct (last J) as [y|] eqn:Hy; [intros [= <-]; by apply Hlast|].
      by apply last_None in Hy.
Qed.

Lemma hyphens_apart_map s :
  hyphens_apart (map Char.lower s) = hyphens_apart s.
Proof.
  induction s as [|c r IH]; [done|].
  cbn [map hyphens_apart]. destruct r as [|d r']; [done|].
  cbn [map] in *. rewrite IH.
  destruct (lower_classes c) as (_ & _ & -> & _).
  by destruct (lower_classes d) as (_ & _ & -> & _).
Qed.

Lemma hyphens_apart_take n : ∀ s,
  hyphens_apart s = true → hyphens_apart (take n s) = true.
Proof.
  induction n as [|n IH]; intros s Hs; [done|].
  destruct s as [|c r]; [done|]. cbn [take].
  cbn [hyphens_apart] in Hs. destruct r as [|d r']; [by destruct n|].
  apply andb_prop in Hs as [Hcd Hr].
  specialize (IH _ Hr). destruct n as [|n]; [done|].
  cbn [take hyphens_apart] in *. by rewrite Hcd, IH.
Qed.

Lemma hyphens_apart_lookup s : ∀ i,
  hyphens_apart s = true →
  s !! i = Some Char.hyphen → s !! S i = Some Char.hyphen → False.
Proof.
  induction s as [|c r IH]; intros i Hs Hi Hi'; [done|].
  cbn [hyphens_apart] in Hs. destruct r as [|d r']; [done|].
  apply andb_prop in Hs as [Hcd Hr].
  destruct i as [|i].
  - cbn in Hi, Hi'. injection Hi as ->. injection Hi' as ->. done.
  - apply (IH i); done.
Qed.

(** What the characters of a name are not, by their code points. *)
Lemma plain_character c :
  Char.illegal c = false → Char.isspace c = false → Char.lower c = c →
  (c ∉ ["<"; ">"; ":"; Char.dquote; "/"; "\"; "|"; "?"; "*"]%char)
  ∧ (nat_of_ascii c ∉ [9; 10; 11; 12; 13; 28; 29; 30; 31; 32; 133; 160])
  ∧ ¬ (65 ≤ nat_of_ascii c ≤ 90)
  ∧ ¬ (192 ≤ nat_of_ascii c ≤ 222 ∧ nat_of_ascii c ≠ 215).
Proof.
  apply (bool_decide_unpack _).
  by destruct c as [[] [] [] [] [] [] [] []]; vm_compute.
Qed.

(** C7: for every title, [sanitize_filename] computes what the
    specification's algorithm computes, and that is: the illegal characters
    are dropped, every run of whitespace and hyphens between two words
    becomes one hyphen, the runs at both ends disappear, the letters are
    lower-cased, and the first 100 characters of that are the result.  So the
    result holds none of the nine illegal characters, no whitespace and no
    capital letter, never two hyphens in a row, no hyphen at its start, and
    none at its end unless it was cut at 100 characters. *)
Theorem sanitize_filename_algorithm (name : string) :
  let result := list_ascii_of_string (sanitize_filename name) in
  sanitize_filename name = sanitize_spec name
  ∧ String.length (sanitize_filename name) ≤ 100
  ∧ result
    = take 100 (map Char.lower (join_hyphen (title_words
        (filter (λ c, c ∉ ["<"; ">"; ":"; Char.dquote; "/"; "\"; "|"; "?"; "*"]%char)
                (list_ascii_of_string name)))))
  ∧ (∀ c, c ∈ result →
       (c ∉ ["<"; ">"; ":"; Char.dquote; "/"; "\"; "|"; "?"; "*"]%char)
       ∧ (nat_of_ascii c ∉ [9; 10; 11; 12; 13; 28; 29; 30; 31; 32; 133; 160])
       ∧ ¬ (65 ≤ nat_of_ascii c ≤ 90)
       ∧ ¬ (192 ≤ nat_of_ascii c ≤ 222 ∧ nat_of_ascii c ≠ 215))
  ∧ (∀ i, ¬ (result !! i = Some "-"%char ∧ result !! S i = Some "-"%char))
  ∧ head result ≠ Some "-"%char
  ∧ (length result < 100 → last result ≠ Some "-"%char)
  ∧ sanitize_filename "  The Legend   of <Zelda>: Part II?  "
    = "the-legend-of-zelda-part-ii"
  ∧ sanitize_filename "-- Mega - Man --" = "mega-man"
  ∧ sanitize_filename "a/b\c|d*e" = "abcde".
Proof.
  intros result.
  assert (Hresult : result = sanitize_chars (list_ascii_of_string name)).
  { subst result. unfold sanitize_filename.
    by rewrite list_ascii_of_string_of_list_ascii. }
  set (legal := filter (λ c, Char.illegal c = false) (list_ascii_of_string name)).
  pose proof (sanitize_chars_words (list_ascii_of_string name)) as Hwords.
  fold legal in Hwords.
  pose proof (join_hyphen_shape (title_words legal)
                (words_go_ok legal [] ltac:(constructor)))
    as (Hhead & Hapart & Hlast).
  set (joined := join_hyphen (title_words legal)) in *.
  assert (Hhyphen : ∀ c, Char.lower c = "-"%char → Char.is_hyphen c = true).
  { intros c Hc. destruct (lower_classes c) as (_ & _ & <- & _).
    by rewrite Hc. }
  split_and!.
  - unfold sanitize_filename, sanitize_spec. by rewrite sanitize_chars_spec.
  - unfold sanitize_filename. rewrite length_string_of_list.
    apply sanitize_chars_length.
  - rewrite Hresult, Hwords. subst joined legal. do 4 f_equal.
    apply list_filter_iff. intros c. unfold Char.illegal.
    by rewrite bool_decide_eq_false.
  - intros c Hc. rewrite Hresult in Hc.
    pose proof (sanitize_chars_classes (list_ascii_of_string name)) as Hall.
    rewrite Forall_forall in Hall.
    destruct (Hall c Hc) as (? & ? & ?). by apply plain_character.
  - intros i [Hi Hi']. rewrite Hresult, Hwords in Hi, Hi'.
    eapply hyphens_apart_lookup; [|exact Hi|exact Hi'].
    apply hyphens_apart_take. by rewrite hyphens_apart_map.
  - rewrite Hresult, Hwords. destruct joined as [|d rest]; [done|].
    cbn. intros [= Hd]. apply Hhyphen in Hd. by rewrite (Hhead d) in Hd.
  - rewrite Hresult, Hwords. intros Hlen.
    rewrite take_ge.
    2:{ rewrite length_take in Hlen. lia. }
    change (map Char.lower joined) with (Char.lower <$> joined).
    rewrite fmap_last. destruct (last joined) as [d|] eqn:Hd; [|done].
    cbn. intros [= Hd']. apply Hhyphen in Hd'. by rewrite (Hlast d) in Hd'.
  - by vm_compute.
  - by vm_compute.
  - by vm_compute.
Qed.

(** ** File names *)

Lemma string_app_length (s t : string) :
  String.length (s +:+ t) = String.length s + String.length t.
Proof. induction s as [|c s IH]; simpl; [done|]. by rewrite IH. Qed.

Lemma string_app_inv_tail (s t e : string) : s +:+ e = t +:+ e → s = t.
Proof.
  revert t. induction s as [|c s IH]; intros [|d t] H.
  - done.
  - apply (f_equal String.length) in H.
    rewrite !string_app_length in H. simpl in H. lia.
  - apply (f_equal String.length) in H.
    rewrite !string_app_length in H. simpl in H. lia.
  - cbn in H. injection H as -> H. by rewrite (IH t H).
Qed.

Lemma candidate_inj safe_name ext : Inj (=) (=) (candidate safe_name ext).
Proof.
  intros [|j] [|k] H; unfold candidate in H.
  - done.
  - apply (inj (String.app safe_name)) in H.
    apply (f_equal String.length) in H.
    rewrite !string_app_length in H. simpl in H. lia.
  - apply (inj (String.app safe_name)) in H.
    apply (f_equal String.length) in H.
    rewrite !string_app_length in H. simpl in H. lia.
  - apply (inj (String.app safe_name)) in H.
    apply (inj (String.app "-")) in H.
    apply string_app_inv_tail in H.
    by apply (inj pretty) in H.
Qed.

Section Probe.

Variables (files : gset string) (safe_name ext : string).

(** The loop stops at the first free name, given fuel to reach it. *)
Lemma probe_finds fuel : ∀ k m,
  k ≤ m → m - k ≤ fuel →
  (∀ j, k ≤ j < m → candidate safe_name ext j ∈ files) →
  candidate safe_name ext m ∉ files →
  probe files safe_name ext fuel (S k) (candidate safe_name ext k)
  = Some (candidate safe_name ext m).
Proof.
  induction fuel as [|fuel IH]; intros k m Hkm Hfuel Hbusy Hfree.
  - assert (k = m) as -> by lia. simpl. by rewrite decide_False.
  - simpl. destruct (decide (candidate safe_name ext k ∈ files)) as [Hin|Hout].
    + assert (k ≠ m) by (by intros ->).
      apply IH; [lia | lia | | done]. intros j Hj. apply Hbusy. lia.
    + destruct (decide (k = m)) as [->|Hne]; [done|].
      destruct Hout. apply Hbusy. lia.
Qed.

(** Among the first [n] names, all are taken or there is a first free one. *)
Lemma first_free n :
  (∀ j, j < n → candidate safe_name ext j ∈ files)
  ∨ ∃ m, m < n ∧ (candidate safe_name ext m ∉ files)
         ∧ ∀ j, j < m → candidate safe_name ext j ∈ files.
Proof.
  induction n as [|n [IH | (m & Hm & Hfree & Hbusy)]].
  - left. lia.
  - destruct (decide (candidate safe_name ext n ∈ files)) as [Hin|Hout].
    + left. intros j Hj. destruct (decide (j = n)) as [->|]; [done|].
      apply IH. lia.
    + right. exists n. split_and!; [lia | done | done].
  - right. exists m. split_and!; [lia | done | done].
Qed.

(** More names than files: they cannot all be taken. *)
Lemma names_exceed_files :
  ¬ ∀ j, j < S (size files) → candidate safe_name ext j ∈ files.
Proof.
  intros Hall.
  pose (names := candidate safe_name ext <$> seq 0 (S (size files))).
  assert (Hsub : (list_to_set names : gset string) ⊆ files).
  { intros x Hx. apply elem_of_list_to_set, list_elem_of_fmap in Hx
      as (j & -> & Hj). apply Hall. apply elem_of_seq in Hj. lia. }
  apply subseteq_size in Hsub.
  rewrite size_list_to_set in Hsub.
  - unfold names in Hsub. rewrite length_fmap, length_seq in Hsub. lia.
  - apply NoDup_fmap_2; [apply candidate_inj | apply NoDup_seq].
Qed.

Lemma least_free :
  ∃ m, m ≤ size files ∧ (candidate safe_name ext m ∉ files)
       ∧ ∀ j, j < m → candidate safe_name ext j ∈ files.
Proof.
  destruct (first_free (S (size files))) as [Hall | (m & Hm & Hfree & Hbusy)].
  - by destruct names_exceed_files.
  - exists m. split_and!; [lia | done | done].
Qed.

(** The fuel of [unique_path] is enough: the loop always ends. *)
Lemma probe_total :
  ∃ m, probe files safe_name ext (size files) 1 (safe_name +:+ ext)
         = Some (candidate safe_name ext m)
       ∧ (candidate safe_name ext m ∉ files)
       ∧ ∀ j, j < m → candidate safe_name ext j ∈ files.
Proof.
  destruct least_free as (m & Hm & Hfree & Hbusy).
  exists m. split_and!; [|done|done].
  apply (probe_finds (size files) 0 m); [lia | lia | | done].
  intros j Hj. apply Hbusy. lia.
Qed.

Lemma unique_path_first_free :
  ∃ m, unique_path files safe_name ext = candidate safe_name ext m
       ∧ (candidate safe_name ext m ∉ files)
       ∧ ∀ j, j < m → candidate safe_name ext j ∈ files.
Proof.
  destruct probe_total as (m & Hp & Hfree & Hbusy).
  exists m. unfold unique_path. by rewrite Hp.
Qed.

(** The path is the [m]-th candidate safe_name ext as soon as that one is the first free. *)
Lemma unique_path_at m :
  candidate safe_name ext m ∉ files →
  (∀ j, j < m → candidate safe_name ext j ∈ files) →
  unique_path files safe_name ext = candidate safe_name ext m.
Proof.
  intros Hfree Hbusy.
  destruct unique_path_first_free as (m' & -> & Hfree' & Hbusy').
  f_equal. destruct (Nat.lt_trichotomy m m') as [Hlt | [-> | Hlt]]; [|done|].
  - destruct Hfree. by apply Hbusy'.
  - destruct Hfree'. by apply Hbusy.
Qed.

End Probe.

(** C4, as amended: [sanitize_filename] maps "Mega Man" to "mega-man" but
    keeps the exclamation marks of "mega   man!!", which are not among the
    characters it strips; a title that does sanitize to "mega-man", such as
    "mega   man??", collides: when the file "mega-man" + extension exists in
    the output directory and "mega-man-1" + extension does not, the path of
    the game is "mega-man-1" + extension. *)
Theorem mega_man_collision (w : World) (files : gset string) (game : Game) :
  sanitize_filename (title game) = "mega-man" →
  "mega-man" +:+ get_extension w (image_url game) ∈ files →
  "mega-man-1" +:+ get_extension w (image_url game) ∉ files →
  sanitize_filename "Mega Man" = "mega-man"
  ∧ sanitize_filename "mega   man!!" = "mega-man!!"
  ∧ sanitize_filename "mega   man??" = "mega-man"
  ∧ game_path w files game = "mega-man-1" +:+ get_extension w (image_url game).
Proof.
  intros Hstem Hbusy Hfree. split_and!; [by vm_compute..|].
  unfold game_path. rewrite Hstem. revert Hbusy Hfree.
  generalize (get_extension w (image_url game)). intros ext Hbusy Hfree.
  assert (Hname : candidate "mega-man" ext 1 = "mega-man-1" +:+ ext)
    by (by vm_compute).
  rewrite <- Hname in *.
  apply unique_path_at; [done|].
  intros j Hj. by assert (j = 0) as -> by lia.
Qed.

Lemma mega_man_collision_witness :
  let game := {| title := "mega   man??";
                 image_url := "https://rec0ded88.com/covers/Mega-Man-2.png" |} in
  game_path fair_world {[ "mega-man.png" ]} game = "mega-man-1.png".
Proof.
  refine (proj2 (proj2 (proj2 (mega_man_collision fair_world _ _ _ _ _)))).
  - vm_compute. reflexivity.
  - vm_compute. reflexivity.
  - vm_compute. intros H. discriminate H.
Defined.

(** C4, as stated, fails: "mega   man!!" does not sanitize to "mega-man". *)
Lemma mega_man_exclamation_counterexample :
  sanitize_filename "mega   man!!" = "mega-man!!"
  ∧ sanitize_filename "mega   man!!" ≠ "mega-man".
Proof. split; [by vm_compute | by vm_compute]. Qed.

(** C9, as amended: for a game whose title sanitizes to the empty string the
    pipeline has no fallback: the stem stays empty, the file is named with the
    bare extension when that name is free, and otherwise with "-N" and the
    extension for the first free N from 1 on.  Either way the name is that of
    no file of the directory. *)
Theorem empty_stem_path (w : World) (files : gset string) (game : Game) :
  sanitize_filename (title game) = "" →
  (get_extension w (image_url game) ∉ files →
   game_path w files game = get_extension w (image_url game))
  ∧ (get_extension w (image_url game) ∈ files →
     ∃ n, game_path w files game
          = "-" +:+ pretty (S n) +:+ get_extension w (image_url game)
          ∧ ∀ j, j < n →
              "-" +:+ pretty (S j) +:+ get_extension w (image_url game) ∈ files)
  ∧ (game_path w files game ∉ files).
Proof.
  intros Hstem. unfold game_path. rewrite Hstem.
  generalize (get_extension w (image_url game)). intros ext. split_and!.
  - intros Hfree. change ext with (candidate "" ext 0) at 2.
    apply unique_path_at; [done | lia].
  - intros Hbusy.
    destruct (unique_path_first_free files "" ext)
      as ([|n] & Hpath & Hfree & Hbelow); [done|].
    exists n. split; [done|].
    intros j Hj. apply (Hbelow (S j)). lia.
  - by destruct (unique_path_first_free files "" ext) as (m & -> & Hfree & _).
Qed.

Lemma empty_stem_path_witness :
  let game := {| title := "???";
                 image_url := "https://rec0ded88.com/covers/unknown.png" |} in
  game_path fair_world ∅ game = ".png".
Proof.
  refine (proj1 (empty_stem_path fair_world ∅ _ _) _).
  - vm_compute. reflexivity.
  - vm_compute. intros H. discriminate H.
Defined.

(** C9, as stated, fails: a title of question marks sanitizes to the empty
    string, and the run writes the file under the bare extension. *)
Lemma empty_stem_counterexample :
  let game := {| title := "???";
                 image_url := "https://rec0ded88.com/covers/unknown.png" |} in
  sanitize_filename (title game) = ""
  ∧ game_path fair_world ∅ game = ".png"
  ∧ files (final (main fair_world None ∅ [game])) = {[ ".png" ]}.
Proof. vm_compute. done. Qed.

(** ** Deduplication by url *)

Lemma unique_from_first_occurrences games : ∀ (seen : gset string) before,
  (∀ url, url ∈ seen ↔ url ∈ image_url <$> before) →
  unique_from seen games = first_occurrences before games.
Proof.
  induction games as [|game rest IH]; intros seen before Hseen; simpl; [done|].
  assert (Hnext : ∀ url, url ∈ {[image_url game]} ∪ seen
                         ↔ url ∈ image_url <$> (before ++ [game])).
  { intros url. rewrite fmap_app, elem_of_app, elem_of_union, Hseen. set_solver. }
  destruct (decide (image_url game ∈ seen)) as [Hin|Hout].
  - rewrite bool_decide_eq_true_2 by (by apply Hseen).
    apply IH. intros url. rewrite <- Hnext. set_solver.
  - rewrite bool_decide_eq_false_2 by (by rewrite <- Hseen).
    f_equal. by apply IH.
Qed.

Lemma unique_from_sublist games : ∀ seen, unique_from seen games `sublist_of` games.
Proof.
  induction games as [|game rest IH]; intros seen; simpl; [done|].
  case_decide; [apply sublist_cons | apply sublist_skip]; apply IH.
Qed.

Lemma unique_from_fresh games : ∀ seen url,
  url ∈ image_url <$> unique_from seen games → url ∉ seen.
Proof.
  induction games as [|game rest IH]; intros seen url; cbn [unique_from].
  - by intros ?%elem_of_nil.
  - case_decide as Hseen; [apply IH|].
    rewrite fmap_cons, elem_of_cons. intros [-> | Hin]; [done|].
    apply IH in Hin. set_solver.
Qed.

Lemma unique_from_NoDup games : ∀ seen, NoDup (image_url <$> unique_from seen games).
Proof.
  induction games as [|game rest IH]; intros seen; cbn [unique_from].
  - constructor.
  - case_decide; [apply IH|]. rewrite fmap_cons. constructor; [|apply IH].
    intros Hin%unique_from_fresh. set_solver.
Qed.

Lemma unique_from_covers games : ∀ seen url,
  url ∈ image_url <$> games →
  url ∈ seen ∨ url ∈ image_url <$> unique_from seen games.
Proof.
  induction games as [|game rest IH]; intros seen url; cbn [unique_from].
  - by intros ?%elem_of_nil.
  - rewrite fmap_cons, elem_of_cons. intros [-> | Hin].
    + case_decide; [by left|]. right. rewrite fmap_cons. by left.
    + case_decide; [by apply IH|].
      destruct (IH ({[image_url game]} ∪ seen) url Hin) as [Hs|Hu].
      * apply elem_of_union in Hs as [->%elem_of_singleton | Hs]; [|by left].
        right. rewrite fmap_cons. by left.
      * right. rewrite fmap_cons. by right.
Qed.

Lemma unique_from_size games : ∀ seen : gset string,
  size (seen ∪ list_to_set (image_url <$> games))
  = size seen + length (unique_from seen games).
Proof.
  induction games as [|game rest IH]; intros seen.
  - cbn. rewrite (right_id_L ∅ (∪)). lia.
  - rewrite fmap_cons, list_to_set_cons. cbn [unique_from].
    case_decide as Hseen.
    + rewrite <- IH. f_equal. set_solver.
    + cbn [length]. rewrite (assoc_L (∪)), (comm_L (∪) seen), IH.
      rewrite size_union, size_singleton by set_solver. lia.
Qed.

(** The number of distinct urls of [games]. *)
Lemma unique_games_length games :
  length (unique_games games)
  = size (list_to_set (image_url <$> games) : gset string).
Proof.
  unfold unique_games.
  pose proof (unique_from_size games ∅) as H.
  rewrite (left_id_L ∅ (∪)), size_empty in H. lia.
Qed.

Lemma main_total w stored files games :
  total (main w stored files games) = length (unique_games games).
Proof.
  unfold main. destruct (unique_games games) as [|game rest]; [done|].
  destruct (loop _ _ _ _ _); [|done]. by destruct (save_progress _ _).
Qed.

(** C5: the games are deduplicated by url, the first occurrence of each url is
    kept and the order of first occurrences is preserved; the list
    ("A","u1"), ("B","u1"), ("C","u2") becomes ("A","u1"), ("C","u2"); and the
    total of a run is the number of distinct urls, 2 in the example. *)
Theorem unique_games_by_url (games : list Game) :
  unique_games games = first_occurrences [] games
  ∧ NoDup (image_url <$> unique_games games)
  ∧ unique_games games `sublist_of` games
  ∧ (∀ url, url ∈ image_url <$> games ↔ url ∈ image_url <$> unique_games games)
  ∧ (∀ w stored files,
       total (main w stored files games)
       = size (list_to_set (image_url <$> games) : gset string))
  ∧ (let example := [ {| title := "A"; image_url := "u1" |};
                      {| title := "B"; image_url := "u1" |};
                      {| title := "C"; image_url := "u2" |} ] in
     unique_games example = [ {| title := "A"; image_url := "u1" |};
                              {| title := "C"; image_url := "u2" |} ]
     ∧ ∀ w stored files, total (main w stored files example) = 2).
Proof.
  split_and!.
  - apply unique_from_first_occurrences. set_solver.
  - apply unique_from_NoDup.
  - apply unique_from_sublist.
  - intros url. split.
    + intros Hin. destruct (unique_from_covers games ∅ url Hin); set_solver.
    + intros Hin. eapply elem_of_sublist; [done|].
      apply fmap_sublist, unique_from_sublist.
  - intros w stored files. by rewrite main_total, unique_games_length.
  - split; [by vm_compute|].
    intros w stored files. rewrite main_total. by vm_compute.
Qed.

(** ** One game of the loop *)

Lemma length_filter_complement {A} (P : A → Prop) `{!∀ x, Decision (P x)}
    (l : list A) :
  length (filter P l) + length (filter (λ x, ¬ P x) l) = length l.
Proof. by rewrite <- length_app, filter_app_complement. Qed.

Lemma download_image_events w i url filepath files :
  ∀ ok files' events,
  download_image w i url filepath files = (ok, files', events) →
  (if ok then events = [Get url]
   else ∃ e, events = [Get url; e] ∧ failure_line url e).
Proof.
  intros ok files' events. unfold download_image, failure_line.
  destruct (request_get w i url) as [|status body_read].
  { intros [= <- <- <-]. eauto. }
  destruct (response_ok status); [|intros [= <- <- <-]; eauto].
  destruct body_read; [|intros [= <- <- <-]; eauto].
  destruct (file_write w i filepath); intros [= <- <- <-]; eauto.
Qed.

(** What [download_image] returns, from what the world does. *)
Lemma download_image_result w i url filepath files :
  (download_image w i url filepath files).1.1
  = match request_get w i url with
    | Response status true =>
        response_ok status && bool_decide (file_write w i filepath = Written)
    | _ => false
    end.
Proof.
  unfold download_image.
  destruct (request_get w i url) as [|status [|]]; [done| |by destruct (response_ok _)].
  destruct (response_ok status); [|done].
  by destruct (file_write w i filepath).
Qed.

Lemma attempt_attempted w i game st : Attempted game st (attempt w i game st).
Proof.
  unfold attempt.
  destruct (download_image _ _ _ _ _) as [[ok files'] events] eqn:Hd.
  apply download_image_events in Hd.
  destruct ok.
  - subst events. by apply attempted_success.
  - destruct Hd as (e & -> & He). by eapply attempted_failure.
Qed.

Lemma loop_body_stepped w ds i game st :
  Stepped ds game st (loop_body w ds i game st).
Proof.
  unfold loop_body. case_decide as Hset; [by constructor|].
  destruct (path_check w i); [|by apply stepped_crashed].
  pose proof (attempt_attempted w i game st) as Hatt.
  unfold checkpoint, save_progress. fold (resolved (attempt w i game st)).
  destruct (Nat.eqb_spec (resolved (attempt w i game st) mod 10) 0) as [Hten|Hten].
  - destruct (progress_write w _).
    + by apply stepped_saved.
    + by apply stepped_raised.
  - by apply stepped_quiet.
Qed.


Section LoopInduction.

Variables (w : World) (ds : gset string).

(** What every step keeps, every run of the loop keeps, however it ends. *)
Lemma loop_state_invariant (I : State → Prop) :
  (∀ i game st, I st → I (state_of (loop_body w ds i game st))) →
  ∀ games i st, I st → I (state_of (loop w ds i games st)).
Proof.
  intros Hstep games. induction games as [|game rest IH]; intros i st Hst.
  - done.
  - simpl. specialize (Hstep i game st Hst).
    destruct (loop_body w ds i game st) as [st'|st']; [by apply IH | done].
Qed.

(** What every step that goes on keeps, a loop that reaches its end keeps. *)
Lemma loop_normal_invariant (I : State → Prop) :
  (∀ i game st st', I st → loop_body w ds i game st = Normal st' → I st') →
  ∀ games i st st', I st → loop w ds i games st = Normal st' → I st'.
Proof.
  intros Hstep games. induction games as [|game rest IH]; intros i st st' Hst.
  - by intros [= <-].
  - simpl. destruct (loop_body w ds i game st) as [st1|st1] eqn:Hbody; [|done].
    apply IH. by eapply Hstep.
Qed.

Lemma loop_app games1 games2 i st :
  loop w ds i (games1 ++ games2) st
  = match loop w ds i games1 st with
    | Normal st1 => loop w ds (i + length games1) games2 st1
    | Raised st1 => Raised st1
    end.
Proof.
  revert i st. induction games1 as [|game rest IH]; intros i st; simpl.
  - by rewrite Nat.add_0_r.
  - destruct (loop_body w ds i game st) as [st1|st1]; [|done].
    rewrite IH. by replace (S i + length rest) with (i + S (length rest)) by lia.
Qed.

End LoopInduction.

(** ** The progress record only grows *)

Global Instance progress_le_preorder : PreOrder progress_le.
Proof.
  split.
  - by intros p.
  - intros p q r [Hd1 Hf1] [Hd2 Hf2]. split; by etrans.
Qed.

Lemma attempted_progress_le game st st1 :
  Attempted game st st1 → progress_le (progress st) (progress st1).
Proof.
  intros [Hp _ _ _ _ | e Hp _ _ _ _ _]; rewrite Hp; split; simpl;
    done || by apply prefix_app_r.
Qed.

Lemma loop_body_progress_le w ds i game st :
  progress_le (progress st) (progress (state_of (loop_body w ds i game st))).
Proof.
  destruct (loop_body_stepped w ds i game st); simpl;
    done || by eapply attempted_progress_le.
Qed.

Lemma loop_progress_le w ds games i st :
  progress_le (progress st) (progress (state_of (loop w ds i games st))).
Proof.
  apply (loop_state_invariant w ds (λ st', progress_le (progress st) (progress st')));
    [|done].
  intros i' game st' Hle. etrans; [done|]. apply loop_body_progress_le.
Qed.

Lemma attempted_saves game st st1 :
  Attempted game st st1 → saves (trace st1) = saves (trace st).
Proof.
  unfold saves.
  intros [_ _ _ _ Ht | e _ _ _ _ Ht He]; rewrite Ht, omap_app; simpl.
  - by rewrite (right_id_L [] (++)).
  - destruct He as [-> | [status ->]]; simpl; by rewrite (right_id_L [] (++)).
Qed.

Lemma attempted_gets game st st1 :
  Attempted game st st1 → gets (trace st1) = gets (trace st) ++ [image_url game].
Proof.
  unfold gets.
  intros [_ _ _ _ Ht | e _ _ _ _ Ht He]; rewrite Ht, omap_app; simpl; [done|].
  by destruct He as [-> | [status ->]].
Qed.

Lemma attempted_sleeps game st st1 :
  Attempted game st st1 → sleeps (trace st1) = sleeps (trace st).
Proof.
  unfold sleeps.
  intros [_ _ _ _ Ht | e _ _ _ _ Ht He]; rewrite Ht, filter_app, length_app.
  - rewrite filter_cons_False by done. simpl. lia.
  - rewrite filter_cons_False by done.
    rewrite filter_cons_False by (by destruct He as [-> | [status ->]]).
    simpl. lia.
Qed.

Lemma attempted_resolved game st st1 :
  Attempted game st st1 → resolved st1 = resolved st + 1.
Proof. unfold resolved. intros [_ Hd Hf _ _ | e _ Hd Hf _ _ _]; lia. Qed.

Lemma attempted_skipped game st st1 :
  Attempted game st st1 → skipped_count st1 = skipped_count st.
Proof. by intros [_ _ _ Hs _ | e _ _ _ Hs _ _]. Qed.

Lemma attempted_entries game st st1 :
  Attempted game st st1 → entries (progress st1) = entries (progress st) + 1.
Proof.
  unfold entries.
  intros [Hp _ _ _ _ | e Hp _ _ _ _ _]; rewrite Hp; simpl; rewrite length_app;
    simpl; lia.
Qed.

Lemma saves_add_save record st :
  saves (trace (add_event (Save record) st)) = saves (trace st) ++ [record].
Proof. unfold saves. simpl. by rewrite omap_app. Qed.

Lemma saves_add_sleep st : saves (trace (add_event Sleep st)) = saves (trace st).
Proof. unfold saves. simpl. rewrite omap_app. simpl. apply (right_id_L [] (++)). Qed.

Lemma ascending_snoc records q :
  ascending records → (∀ p, p ∈ records → progress_le p q) →
  ascending (records ++ [q]).
Proof.
  intros Hasc Hbelow j k p r Hjk Hj Hk.
  destruct (decide (k < length records)) as [Hlt|Hge].
  - rewrite lookup_app_l in Hj by lia. rewrite lookup_app_l in Hk by lia.
    exact (Hasc j k p r Hjk Hj Hk).
  - apply lookup_lt_Some in Hk as Hk'. rewrite length_app in Hk'. simpl in Hk'.
    assert (k = length records) as -> by lia.
    rewrite lookup_app_r, Nat.sub_diag in Hk by lia. injection Hk as <-.
    destruct (decide (j < length records)) as [Hj'|Hj'].
    + rewrite lookup_app_l in Hj by lia.
      apply Hbelow. by eapply list_elem_of_lookup_2.
    + assert (j = length records) as -> by lia.
      rewrite lookup_app_r, Nat.sub_diag in Hj by lia. by injection Hj as <-.
Qed.

Lemma growing_attempted p0 game st st1 :
  Attempted game st st1 → Growing p0 st → Growing p0 st1.
Proof.
  intros Hatt (Hle & Hsaved & Hasc).
  pose proof (attempted_progress_le _ _ _ Hatt) as Hstep.
  unfold Growing. rewrite (attempted_saves _ _ _ Hatt). split_and!.
  - by etrans.
  - intros p Hp. destruct (Hsaved p Hp). split; [done | by etrans].
  - done.
Qed.

Lemma growing_save p0 st :
  Growing p0 st → Growing p0 (add_event (Save (progress st)) st).
Proof.
  intros (Hle & Hsaved & Hasc). unfold Growing. rewrite saves_add_save.
  split_and!; [done| |].
  - intros p [Hp | ->%list_elem_of_singleton]%elem_of_app; [by apply Hsaved|done].
  - apply ascending_snoc; [done|]. intros p Hp. by apply Hsaved.
Qed.

Lemma growing_sleep p0 st : Growing p0 st → Growing p0 (add_event Sleep st).
Proof. unfold Growing. by rewrite saves_add_sleep. Qed.

Lemma growing_loop_body p0 w ds i game st :
  Growing p0 st → Growing p0 (state_of (loop_body w ds i game st)).
Proof.
  intros Hst. destruct (loop_body_stepped w ds i game st); simpl.
  - done.
  - done.
  - by eapply growing_sleep, growing_attempted.
  - by eapply growing_sleep, growing_save, growing_attempted.
  - by eapply growing_attempted.
Qed.

Lemma growing_initial p0 files : Growing p0 (initial p0 files).
Proof.
  split_and!; [done| |].
  - by intros p ?%elem_of_nil.
  - by intros j k p q _ ?.
Qed.

Lemma growing_main w stored files games :
  Growing (load_progress stored) (final (main w stored files games)).
Proof.
  unfold main. set (p0 := load_progress stored).
  destruct (unique_games games) as [|game rest] eqn:Hgames.
  { apply growing_initial. }
  set (ds := list_to_set (downloaded p0) : gset string).
  pose proof (loop_state_invariant w ds (Growing p0)
                (λ i g st, growing_loop_body p0 w ds i g st)
                (game :: rest) 1 _ (growing_initial p0 files)) as Hloop.
  destruct (loop w ds 1 (game :: rest) (initial p0 files)) as [st|st]; [|done].
  simpl in Hloop. unfold save_progress.
  destruct (progress_write w _); simpl; [by apply growing_save | done].
Qed.

(** C10: the record in memory only grows.  One game of the loop, and so any
    stretch of the loop, leaves a record that extends the one before:
    nothing is removed from or changed in [downloaded] and [failed].  In a
    run, the final record extends the loaded one, every saved record extends
    the loaded one and is extended by the final one, and each saved record
    extends the ones saved before it. *)
Theorem progress_only_grows (w : World) (stored : option Progress)
    (files : gset string) (games : list Game) :
  let p0 := load_progress stored in
  let st := final (main w stored files games) in
  (∀ ds i game st0,
     progress_le (progress st0) (progress (state_of (loop_body w ds i game st0))))
  ∧ (∀ ds i before after st0,
       progress_le (progress (state_of (loop w ds i before st0)))
                   (progress (state_of (loop w ds i (before ++ after) st0))))
  ∧ progress_le p0 (progress st)
  ∧ (∀ p, p ∈ saves (trace st) → progress_le p0 p ∧ progress_le p (progress st))
  ∧ ascending (saves (trace st)).
Proof.
  intros p0 st.
  destruct (growing_main w stored files games) as (Hle & Hsaved & Hasc).
  split_and!; [| |done|done|done].
  - intros. apply loop_body_progress_le.
  - intros ds i before after st0. rewrite loop_app.
    destruct (loop w ds i before st0) as [st1|st1]; simpl; [|done].
    apply loop_progress_le.
Qed.

(** ** Which games are skipped, which are fetched *)

Lemma gets_add_save record st :
  gets (trace (add_event (Save record) st)) = gets (trace st).
Proof. unfold gets. simpl. rewrite omap_app. simpl. apply (right_id_L [] (++)). Qed.

Lemma gets_add_sleep st : gets (trace (add_event Sleep st)) = gets (trace st).
Proof. unfold gets. simpl. rewrite omap_app. simpl. apply (right_id_L [] (++)). Qed.

Lemma sleeps_add_save record st :
  sleeps (trace (add_event (Save record) st)) = sleeps (trace st).
Proof.
  unfold sleeps. simpl. rewrite filter_app, length_app.
  rewrite filter_cons_False by done. simpl. lia.
Qed.

Lemma sleeps_add_sleep st :
  sleeps (trace (add_event Sleep st)) = sleeps (trace st) + 1.
Proof.
  unfold sleeps. simpl. rewrite filter_app, length_app.
  by rewrite filter_cons_True by done.
Qed.

Lemma resolved_add_event e st : resolved (add_event e st) = resolved st.
Proof. done. Qed.

Lemma filter_one_True {A} (P : A → Prop) `{!∀ x, Decision (P x)} x :
  P x → filter P [x] = [x] ∧ filter (λ y, ¬ P y) [x] = [].
Proof.
  intros HP. split; [by rewrite filter_cons_True|].
  rewrite filter_cons_False; [done | by intros HnP].
Qed.

Lemma filter_one_False {A} (P : A → Prop) `{!∀ x, Decision (P x)} x :
  ¬ P x → filter P [x] = [] ∧ filter (λ y, ¬ P y) [x] = [x].
Proof.
  intros HP. split; [by rewrite filter_cons_False|].
  by rewrite filter_cons_True.
Qed.

Lemma loop_body_counted w ds i game st st' :
  loop_body w ds i game st = Normal st' → Counted ds [game] st st'.
Proof.
  intros Hbody. pose proof (loop_body_stepped w ds i game st) as Hstep.
  rewrite Hbody in Hstep.
  inversion Hstep as [Hin | | st1 Hout Hatt Hten | st1 Hout Hatt Hten | ]; subst.
  - destruct (filter_one_True (λ g, image_url g ∈ ds) game Hin) as [Hf1 Hf2].
    split; rewrite ?Hf1, ?Hf2; cbn [length fmap list_fmap].
    + done.
    + unfold resolved. cbn [downloaded_count failed_count skip]. lia.
    + cbn [trace skip]. by rewrite (right_id_L [] (++)).
    + cbn [trace skip]. lia.
  - destruct (filter_one_False (λ g, image_url g ∈ ds) game Hout) as [Hf1 Hf2].
    split; rewrite ?Hf1, ?Hf2; cbn [length fmap list_fmap].
    + cbn [skipped_count add_event]. rewrite (attempted_skipped _ _ _ Hatt). lia.
    + by rewrite resolved_add_event, (attempted_resolved _ _ _ Hatt).
    + by rewrite gets_add_sleep, (attempted_gets _ _ _ Hatt).
    + by rewrite sleeps_add_sleep, (attempted_sleeps _ _ _ Hatt).
  - destruct (filter_one_False (λ g, image_url g ∈ ds) game Hout) as [Hf1 Hf2].
    split; rewrite ?Hf1, ?Hf2; cbn [length fmap list_fmap].
    + cbn [skipped_count add_event]. rewrite (attempted_skipped _ _ _ Hatt). lia.
    + by rewrite !resolved_add_event, (attempted_resolved _ _ _ Hatt).
    + by rewrite gets_add_sleep, gets_add_save, (attempted_gets _ _ _ Hatt).
    + by rewrite sleeps_add_sleep, sleeps_add_save, (attempted_sleeps _ _ _ Hatt).
Qed.

Lemma counted_nil ds st : Counted ds [] st st.
Proof.
  split; rewrite ?filter_nil; cbn [length fmap list_fmap];
    rewrite ?(right_id_L [] (++)); lia || done.
Qed.

Lemma counted_cons ds game rest st st1 st' :
  Counted ds [game] st st1 → Counted ds rest st1 st' →
  Counted ds (game :: rest) st st'.
Proof.
  intros [Hs1 Hr1 Hg1 Hz1] [Hs Hr Hg Hz].
  destruct (decide (image_url game ∈ ds)) as [Hin|Hout].
  - destruct (filter_one_True (λ g, image_url g ∈ ds) game Hin) as [Hf1 Hf2].
    rewrite Hf1 in Hs1. rewrite Hf2 in Hr1, Hg1, Hz1.
    cbn [length fmap list_fmap] in Hs1, Hr1, Hg1, Hz1.
    rewrite (right_id_L [] (++)) in Hg1.
    assert (Hc1 : filter (λ g, image_url g ∈ ds) (game :: rest)
                  = game :: filter (λ g, image_url g ∈ ds) rest)
      by (by rewrite filter_cons_True).
    assert (Hc2 : filter (λ g, image_url g ∉ ds) (game :: rest)
                  = filter (λ g, image_url g ∉ ds) rest)
      by (rewrite filter_cons_False; [done | by intros H]).
    split; rewrite ?Hc1, ?Hc2; cbn [length];
      [lia | lia | by rewrite Hg, Hg1 | lia].
  - destruct (filter_one_False (λ g, image_url g ∈ ds) game Hout) as [Hf1 Hf2].
    rewrite Hf1 in Hs1. rewrite Hf2 in Hr1, Hg1, Hz1.
    cbn [length fmap list_fmap] in Hs1, Hr1, Hg1, Hz1.
    assert (Hc1 : filter (λ g, image_url g ∈ ds) (game :: rest)
                  = filter (λ g, image_url g ∈ ds) rest)
      by (by rewrite filter_cons_False).
    assert (Hc2 : filter (λ g, image_url g ∉ ds) (game :: rest)
                  = game :: filter (λ g, image_url g ∉ ds) rest)
      by (by rewrite filter_cons_True).
    split; rewrite ?Hc1, ?Hc2; cbn [length fmap list_fmap];
      [lia | lia | | lia].
    by rewrite Hg, Hg1, <- (assoc_L (++)).
Qed.

Lemma loop_counted w ds games : ∀ i st st',
  loop w ds i games st = Normal st' → Counted ds games st st'.
Proof.
  induction games as [|game rest IH]; intros i st st'; simpl.
  - intros [= <-]. apply counted_nil.
  - destruct (loop_body w ds i game st) as [st1|st1] eqn:Hbody; [|done].
    intros Hloop. eapply counted_cons; [by eapply loop_body_counted | by eapply IH].
Qed.

(** The three ways a run ends. *)
Lemma main_cases w stored files games :
  let p0 := load_progress stored in
  let ds : gset string := list_to_set (downloaded p0) in
  let start := loop w ds 1 (unique_games games) (initial p0 files) in
  let r := main w stored files games in
  (unique_games games = []
   ∧ r = {| exit := NoGames; total := 0; final := initial p0 files |})
  ∨ (∃ st, unique_games games ≠ [] ∧ exit r = Error ∧ final r = st
           ∧ (start = Raised st
              ∨ (start = Normal st
                 ∧ progress_write w (length (saves (trace st))) = false)))
  ∨ (∃ st, unique_games games ≠ [] ∧ start = Normal st ∧ exit r = Complete
           ∧ final r = add_event (Save (progress st)) st).
Proof.
  intros p0 ds start r. subst start r. unfold main. fold p0. fold ds.
  destruct (unique_games games) as [|game rest]; [by left|]. right.
  destruct (loop w ds 1 (game :: rest) (initial p0 files)) as [st|st].
  - unfold save_progress. destruct (progress_write w _) eqn:Hwrite.
    + right. by exists st.
    + left. exists st. split_and!; try done. by right.
  - left. exists st. split_and!; try done. by left.
Qed.

(** A run that completes: the loop reached its end and the final save
    returned. *)
Lemma main_complete w stored files games :
  exit (main w stored files games) = Complete →
  ∃ st, loop w (list_to_set (downloaded (load_progress stored))) 1
          (unique_games games) (initial (load_progress stored) files)
        = Normal st
        ∧ final (main w stored files games) = add_event (Save (progress st)) st.
Proof.
  unfold main. destruct (unique_games games) as [|game rest]; [done|].
  destruct (loop _ _ _ _ _) as [st|st]; [|done].
  unfold save_progress. destruct (progress_write w _); [|done].
  intros _. by exists st.
Qed.


(** ** The cadence of the periodic save *)

Lemma tenth_step r : (r + 1) mod 10 = 0 → (r + 1) / 10 = r / 10 + 1 ∧ r + 1 = 10 * ((r + 1) / 10).
Proof.
  intros H.
  pose proof (Nat.div_mod_eq (r + 1) 10). pose proof (Nat.div_mod_eq r 10).
  pose proof (Nat.mod_upper_bound r 10). lia.
Qed.

Lemma other_step r : (r + 1) mod 10 ≠ 0 → (r + 1) / 10 = r / 10.
Proof.
  intros H.
  pose proof (Nat.div_mod_eq (r + 1) 10). pose proof (Nat.div_mod_eq r 10).
  pose proof (Nat.mod_upper_bound r 10). pose proof (Nat.mod_upper_bound (r + 1) 10).
  lia.
Qed.

Lemma cadence_loop_body p0 w ds i game st st' :
  Cadence p0 st → loop_body w ds i game st = Normal st' → Cadence p0 st'.
Proof.
  intros [Hent Hsaves] Hbody.
  pose proof (loop_body_stepped w ds i game st) as Hstep. rewrite Hbody in Hstep.
  inversion Hstep as [Hin | | st1 Hout Hatt Hten | st1 Hout Hatt Hten | ]; subst.
  - done.
  - pose proof (attempted_resolved _ _ _ Hatt) as Hres.
    split.
    + change (entries (progress st1) = entries p0 + resolved st1).
      rewrite (attempted_entries _ _ _ Hatt). lia.
    + rewrite saves_add_sleep, (attempted_saves _ _ _ Hatt).
      change (resolved (add_event Sleep st1)) with (resolved st1).
      rewrite Hres in *. by rewrite other_step.
  - pose proof (attempted_resolved _ _ _ Hatt) as Hres.
    pose proof (attempted_entries _ _ _ Hatt) as Hent1.
    split.
    + change (entries (progress st1) = entries p0 + resolved st1). lia.
    + rewrite saves_add_sleep, saves_add_save, (attempted_saves _ _ _ Hatt).
      change (resolved (add_event Sleep (add_event (Save (progress st1)) st1)))
        with (resolved st1).
      rewrite Hres in *. destruct (tenth_step _ Hten) as [Hdiv Hmul].
      rewrite Hdiv, seq_app, !fmap_app, Hsaves. cbn [seq fmap list_fmap].
      do 2 f_equal. lia.
Qed.

Lemma cadence_initial p0 files : Cadence p0 (initial p0 files).
Proof. split; [unfold resolved; simpl; lia | done]. Qed.

Lemma loop_cadence w ds p0 files games i st :
  loop w ds i games (initial p0 files) = Normal st → Cadence p0 st.
Proof.
  apply (loop_normal_invariant w ds (Cadence p0)); [|apply cadence_initial].
  intros i' game st0 st1. apply cadence_loop_body.
Qed.

(** C6: the periodic save follows the attempts, successes and failures alike
    and no skips.  The attempt that brings their number to a multiple of 10 is
    followed by a save of the record as that attempt left it, its own outcome
    included, and another attempt is followed by none.  So when the loop has
    gone through [games] the saves are those of the attempts 10, 20, ..., and
    the k-th of them holds 10 * k outcomes more than the loaded record. *)
Theorem checkpoint_cadence (w : World) (ds : gset string) (p0 : Progress)
    (files : gset string) (games : list Game) (i : nat) (st : State) :
  loop w ds i games (initial p0 files) = Normal st →
  resolved st + skipped_count st = length games
  ∧ resolved st = length (filter (λ g, image_url g ∉ ds) games)
  ∧ entries (progress st) = entries p0 + resolved st
  ∧ entries <$> saves (trace st)
    = (λ k, entries p0 + 10 * k) <$> seq 1 (resolved st / 10)
  ∧ (∀ j game st0, image_url game ∉ ds → path_check w j = true →
       let st1 := attempt w j game st0 in
       resolved st1 = resolved st0 + 1
       ∧ entries (progress st1) = entries (progress st0) + 1
       ∧ (resolved st1 mod 10 ≠ 0 →
          loop_body w ds j game st0 = Normal (add_event Sleep st1))
       ∧ (resolved st1 mod 10 = 0 →
          progress_write w (length (saves (trace st1))) = true →
          loop_body w ds j game st0
          = Normal (add_event Sleep (add_event (Save (progress st1)) st1)))).
Proof.
  intros Hloop.
  pose proof (loop_counted _ _ _ _ _ _ Hloop) as [Hs Hr _ _].
  pose proof (loop_cadence _ _ _ _ _ _ _ Hloop) as [Hent Hsaves].
  unfold resolved in Hr at 2. simpl in Hs, Hr.
  split_and!; [|done|done|done|].
  - rewrite Hs, Hr, Nat.add_comm.
    pose proof (length_filter_complement (λ g, image_url g ∈ ds) games).
    simpl in *. lia.
  - intros j game st0 Hout Hcheck st1.
    pose proof (attempt_attempted w j game st0) as Hatt. fold st1 in Hatt.
    split_and!.
    + by apply (attempted_resolved game).
    + by apply (attempted_entries game).
    + intros Hten. unfold loop_body, checkpoint. fold st1. fold (resolved st1).
      rewrite decide_False, Hcheck by done.
      by destruct (Nat.eqb_spec (resolved st1 mod 10) 0).
    + intros Hten Hwrite. unfold loop_body, checkpoint, save_progress.
      fold st1. fold (resolved st1).
      rewrite decide_False, Hcheck by done.
      by rewrite Hten, Hwrite.
Qed.

Lemma checkpoint_cadence_witness :
  let st := state_of (loop fair_world ∅ 1 (example_games 11)
                        (initial (load_progress None) ∅)) in
  resolved st = 11 ∧ entries <$> saves (trace st) = [10].
Proof.
  intros st.
  assert (Hloop : loop fair_world ∅ 1 (example_games 11)
                    (initial (load_progress None) ∅) = Normal st)
    by (vm_compute; reflexivity).
  destruct (checkpoint_cadence fair_world ∅ (load_progress None) ∅
              (example_games 11) 1 st Hloop) as (_ & Hres & _ & Hsaves & _).
  split; [exact Hres | exact Hsaves].
Defined.

(** ** The final save *)

Lemma unsaved_loop_body w ds i game st :
  Unsaved st → Unsaved (state_of (loop_body w ds i game st)).
Proof.
  intros Hst record.
  destruct (loop_body_stepped w ds i game st)
    as [_ | _ | st1 _ Hatt _ | st1 _ Hatt _ | st1 _ Hatt _]; simpl.
  - apply Hst.
  - apply Hst.
  - by rewrite last_snoc.
  - by rewrite last_snoc.
  - destruct Hatt as [_ _ _ _ Ht | e _ _ _ _ Ht He]; rewrite Ht.
    + by rewrite last_snoc.
    + rewrite last_app. cbn [last].
      by destruct He as [-> | [status ->]].
Qed.

Lemma unsaved_loop w ds games i st :
  Unsaved st → Unsaved (state_of (loop w ds i games st)).
Proof.
  apply (loop_state_invariant w ds Unsaved).
  intros i' game st'. apply unsaved_loop_body.
Qed.

(** C3, as amended: the final save is made on one exit path only.  A run that
    completes ends with the save of the final record, made after the loop; the
    early return when no game is found leaves the trace empty; and a run that
    an exception leaves does not end with a save. *)
Theorem final_save_on_completion (w : World) (stored : option Progress)
    (files : gset string) (games : list Game) :
  let r := main w stored files games in
  match exit r with
  | Complete =>
      ∃ st, loop w (list_to_set (downloaded (load_progress stored))) 1
              (unique_games games) (initial (load_progress stored) files)
            = Normal st
            ∧ trace (final r) = trace st ++ [Save (progress (final r))]
  | NoGames => unique_games games = [] ∧ trace (final r) = []
  | Error => ∀ record, last (trace (final r)) ≠ Some (Save record)
  end.
Proof.
  intros r. subst r. unfold main.
  destruct (unique_games games) as [|game rest] eqn:Hgames; [done|].
  set (p0 := load_progress stored).
  set (ds := list_to_set (downloaded p0) : gset string).
  assert (Hinit : Unsaved (initial p0 files)) by (by intros record).
  pose proof (unsaved_loop w ds (game :: rest) 1 _ Hinit) as Hloop.
  destruct (loop w ds 1 (game :: rest) (initial p0 files)) as [st|st]; simpl.
  - unfold save_progress. destruct (progress_write w _); simpl; [|done].
    by exists st.
  - done.
Qed.

(** C3, as stated, fails: no save is made when no game is found, nor when the
    directory cannot be read at the second game, although the first game was
    downloaded. *)
Lemma final_save_counterexample :
  (let r := main fair_world None ∅ [] in
   exit r = NoGames ∧ saves (trace (final r)) = [])
  ∧ (let r := main unreadable_world None ∅ (example_games 3) in
     exit r = Error ∧ downloaded_count (final r) = 1
     ∧ saves (trace (final r)) = []).
Proof. split; by vm_compute. Qed.

(** ** A second run *)

Lemma loop_all_skipped w ds games : ∀ i st,
  (∀ game, game ∈ games → image_url game ∈ ds) →
  ∃ st', loop w ds i games st = Normal st'
         ∧ downloaded_count st' = downloaded_count st
         ∧ failed_count st' = failed_count st
         ∧ skipped_count st' = skipped_count st + length games
         ∧ progress st' = progress st
         ∧ trace st' = trace st.
Proof.
  induction games as [|game rest IH]; intros i st Hall; simpl.
  - exists st. split_and!; done || lia.
  - unfold loop_body. rewrite decide_True by (apply Hall; by left).
    destruct (IH (S i) (skip st)) as (st' & -> & Hd & Hf & Hs & Hp & Ht).
    { intros g Hg. apply Hall. by right. }
    exists st'. simpl in *. split_and!; done || lia.
Qed.

Lemma loop_failed_count_le w ds games i st :
  failed_count st ≤ failed_count (state_of (loop w ds i games st)).
Proof.
  apply (loop_state_invariant w ds (λ st', failed_count st ≤ failed_count st'));
    [|done].
  intros i' game st' Hle.
  destruct (loop_body_stepped w ds i' game st')
    as [_ | _ | st1 _ Hatt _ | st1 _ Hatt _ | st1 _ Hatt _]; simpl; try done;
    destruct Hatt as [_ _ Hf _ _ | e _ _ Hf _ _ _]; lia.
Qed.

(** Without a failure, every game that was not skipped is in [downloaded]. *)
Lemma loop_covered w ds games : ∀ i st st',
  loop w ds i games st = Normal st' →
  failed_count st' = failed_count st →
  ∀ game, game ∈ games →
          image_url game ∈ ds ∨ image_url game ∈ downloaded (progress st').
Proof.
  induction games as [|game rest IH]; intros i st st' Hloop Hfailed g Hg.
  { by apply elem_of_nil in Hg. }
  simpl in Hloop.
  destruct (loop_body w ds i game st) as [st1|st1] eqn:Hbody; [|done].
  pose proof (loop_failed_count_le w ds rest (S i) st1) as Hmono.
  pose proof (loop_progress_le w ds rest (S i) st1) as [Hgrow _].
  rewrite Hloop in Hmono, Hgrow. simpl in Hmono, Hgrow.
  pose proof (loop_body_stepped w ds i game st) as Hstep. rewrite Hbody in Hstep.
  assert (Hhead : failed_count st1 = failed_count st
                  ∧ (image_url game ∈ ds
                     ∨ image_url game ∈ downloaded (progress st1))).
  { inversion Hstep as [Hin | | s1 Hout Hatt Hten | s1 Hout Hatt Hten | ]; subst;
      simpl in *; [by auto | |];
      (destruct Hatt as [Hp _ Hf _ _ | e _ _ Hf _ _ _]; [|lia]);
      (split; [done|]); right; rewrite Hp; simpl; apply elem_of_app; right;
      by left. }
  destruct Hhead as [Hf1 Hhead].
  apply elem_of_cons in Hg as [-> | Hg].
  - destruct Hhead as [Hin | Hin]; [by left|]. right.
    by eapply elem_of_prefix.
  - eapply IH; [done | lia | done].
Qed.

Lemma loop_length w ds games i st st' :
  loop w ds i games st = Normal st' →
  resolved st' + skipped_count st' = resolved st + skipped_count st + length games.
Proof.
  intros [Hs Hr _ _]%loop_counted.
  pose proof (length_filter_complement (λ g, image_url g ∈ ds) games).
  simpl in *. lia.
Qed.

Lemma last_saves_add_save record st :
  last (saves (trace (add_event (Save record) st))) = Some record.
Proof. by rewrite saves_add_save, last_snoc. Qed.

(** C1, as amended: when a run ends without an error and without a failed
    game, a second run on the same games that starts from the progress file
    the first one left requests nothing and downloads nothing, and it skips
    every game: its [skipped] is the sum of [downloaded] and [skipped] of the
    first run, which is [downloaded] of the first run when that run skipped
    nothing. *)
Theorem second_run_downloads_nothing (w1 w2 : World) (stored : option Progress)
    (files1 files2 : gset string) (games : list Game) :
  let r1 := main w1 stored files1 games in
  let r2 := main w2 (stored_after stored r1) files2 games in
  exit r1 ≠ Error → failed_count (final r1) = 0 →
  downloaded_count (final r2) = 0
  ∧ gets (trace (final r2)) = []
  ∧ skipped_count (final r2)
    = downloaded_count (final r1) + skipped_count (final r1)
  ∧ (skipped_count (final r1) = 0 →
     skipped_count (final r2) = downloaded_count (final r1)).
Proof.
  intros r1 r2 Hexit Hfailed.
  assert (Hgoal : downloaded_count (final r2) = 0
                  ∧ gets (trace (final r2)) = []
                  ∧ skipped_count (final r2)
                    = downloaded_count (final r1) + skipped_count (final r1));
    [|destruct Hgoal as (? & ? & ?); split_and!; done || lia].
  pose proof (main_cases w1 stored files1 games) as Hcases.
  cbv zeta in Hcases. fold r1 in Hcases.
  destruct Hcases
    as [[Hnil Hr1] | [(st & _ & Hx & _) | (st & Hne & Hloop & Hx & Hfin)]];
    [| done |].
  - (* no game: the file is left as it was, the second run finds no game *)
    assert (Hstored : stored_after stored r1 = stored)
      by (unfold stored_after; by rewrite Hr1).
    subst r2. rewrite Hstored.
    destruct (main_cases w2 stored files2 games)
      as [[_ ->] | [(st & Hne & _) | (st & Hne & _)]]; [|done|done].
    by rewrite Hr1.
  - (* the first run completed: every game is in the file it saved *)
    assert (Hstored : stored_after stored r1 = Some (progress st))
      by (unfold stored_after; by rewrite Hfin, last_saves_add_save).
    subst r2. rewrite Hstored. rewrite Hfin in Hfailed |- *.
    cbn [failed_count downloaded_count skipped_count add_event] in Hfailed |- *.
    set (p0 := load_progress stored) in *.
    set (ds := list_to_set (downloaded p0) : gset string) in *.
    destruct (loop_all_skipped w2 (list_to_set (downloaded (progress st)))
                (unique_games games) 1 (initial (progress st) files2))
      as (st2 & Hloop2 & Hd & Hf & Hs & Hp & Ht).
    { intros g Hg. apply elem_of_list_to_set.
      pose proof (loop_progress_le w1 ds (unique_games games) 1 (initial p0 files1))
        as [Hgrow _].
      rewrite Hloop in Hgrow. cbn [state_of progress initial] in Hgrow.
      destruct (loop_covered _ _ _ _ _ _ Hloop Hfailed g Hg) as [Hin | Hin];
        [|done].
      apply elem_of_list_to_set in Hin. by eapply elem_of_prefix. }
    apply loop_length in Hloop. unfold resolved in Hloop.
    cbn [downloaded_count failed_count skipped_count initial] in Hloop, Hd, Hs.
    cbn [trace initial] in Ht.
    assert (Hfinal2 : ∀ st', (st' = st2 ∨ st' = add_event (Save (progress st2)) st2) →
              downloaded_count st' = 0 ∧ gets (trace st') = []
              ∧ skipped_count st' = downloaded_count st + skipped_count st).
    { intros st' [-> | ->]; rewrite ?gets_add_save, Ht;
        cbn [downloaded_count skipped_count add_event]; split_and!; done || lia. }
    apply Hfinal2.
    destruct (main_cases w2 (Some (progress st)) files2 games)
      as [[Hnil _] | [(st' & _ & _ & -> & [Hl | [Hl _]])
                     | (st' & _ & Hl & _ & ->)]];
      [done | | | ]; cbn [load_progress] in Hl; rewrite Hloop2 in Hl.
    + done.
    + injection Hl as <-. by left.
    + injection Hl as <-. by right.
Qed.

Lemma second_run_downloads_nothing_witness :
  let r1 := main fair_world None ∅ (example_games 3) in
  let r2 := main fair_world (stored_after None r1) (files (final r1))
              (example_games 3) in
  downloaded_count (final r1) = 3 ∧ downloaded_count (final r2) = 0
  ∧ skipped_count (final r2) = 3.
Proof.
  intros r1 r2.
  destruct (second_run_downloads_nothing fair_world fair_world None ∅
              (files (final r1)) (example_games 3))
    as (Hd & _ & Hs & _).
  - vm_compute. discriminate.
  - vm_compute. reflexivity.
  - split_and!; [vm_compute; reflexivity | exact Hd | exact Hs].
Defined.

(** C1, as stated, fails for a run that resumes: the first run skips the one
    game and downloads nothing, and the second run skips it again, so its
    [skipped] is 1 and not the 0 of [downloaded] of the first run. *)
Lemma resumed_run_counterexample :
  let stored :=
    Some {| downloaded := ["https://rec0ded88.com/covers/game-1.png"];
            failed := [] |} in
  let r1 := main fair_world stored ∅ (example_games 1) in
  let r2 := main fair_world (stored_after stored r1) (files (final r1))
              (example_games 1) in
  exit r1 = Complete ∧ failed_count (final r1) = 0
  ∧ downloaded_count (final r1) = 0
  ∧ downloaded_count (final r2) = 0
  ∧ skipped_count (final r2) = 1
  ∧ skipped_count (final r2) ≠ downloaded_count (final r1).
Proof. by vm_compute. Qed.

(** ** A failed download stays in [download_image] *)

Lemma attempt_failed w i game st :
  (download_image w i (image_url game) (game_path w (files st) game) (files st)).1.1
  = false →
  let st1 := attempt w i game st in
  failed_count st1 = failed_count st + 1
  ∧ downloaded_count st1 = downloaded_count st
  ∧ skipped_count st1 = skipped_count st
  ∧ failed (progress st1)
    = failed (progress st) ++ [{| failed_title := title game;
                                  failed_url := image_url game |}]
  ∧ downloaded (progress st1) = downloaded (progress st)
  ∧ ∃ e, trace st1 = trace st ++ [Get (image_url game); e]
         ∧ failure_line (image_url game) e.
Proof.
  intros Hfalse st1. subst st1. unfold attempt.
  destruct (download_image _ _ _ _ _) as [[ok files'] events] eqn:Hd.
  simpl in Hfalse. subst ok.
  apply download_image_events in Hd as (e & -> & He).
  simpl. split_and!; try done. by exists e.
Qed.

(** C8: one call of [download_image] returns a boolean whatever the world
    does: it is [False] when the request raises, when the status is not 2xx,
    when reading the body raises and when the file cannot be written.  It then
    has made one request and printed one line, and the loop counts one
    failure, appends the title and the url to [failed], leaves [downloaded]
    alone and, unless the periodic save that is due raises, goes on with the
    next game. *)
Theorem fetch_failure_contained (w : World) (ds : gset string) (i : nat)
    (game : Game) (st : State) :
  image_url game ∉ ds → path_check w i = true →
  (download_image w i (image_url game) (game_path w (files st) game) (files st)).1.1
  = false →
  let st1 := attempt w i game st in
  (∀ j url filepath files0,
     (request_get w j url = RequestRaised
      ∨ (∃ status body_read, request_get w j url = Response status body_read
                             ∧ (status < 200 ∨ 299 < status))
      ∨ (∃ status, request_get w j url = Response status false)
      ∨ file_write w j filepath ≠ Written) →
     (download_image w j url filepath files0).1.1 = false)
  ∧ failed_count st1 = failed_count st + 1
  ∧ downloaded_count st1 = downloaded_count st
  ∧ failed (progress st1)
    = failed (progress st) ++ [{| failed_title := title game;
                                  failed_url := image_url game |}]
  ∧ downloaded (progress st1) = downloaded (progress st)
  ∧ (∃ e, trace st1 = trace st ++ [Get (image_url game); e]
          ∧ failure_line (image_url game) e)
  ∧ (resolved st1 mod 10 ≠ 0
     ∨ progress_write w (length (saves (trace st1))) = true →
     ∃ st', loop_body w ds i game st = Normal st'
            ∧ progress st' = progress st1
            ∧ failed_count st' = failed_count st1
            ∧ gets (trace st') = gets (trace st) ++ [image_url game]
            ∧ ∀ rest, loop w ds i (game :: rest) st = loop w ds (S i) rest st').
Proof.
  intros Hout Hcheck Hfalse st1.
  destruct (attempt_failed w i game st Hfalse) as (Hf & Hd & Hs & Hfl & Hdl & He).
  fold st1 in Hf, Hd, Hs, Hfl, Hdl, He.
  split_and!; try done.
  - intros j url filepath files0 Hcase. rewrite download_image_result.
    destruct Hcase as [-> | [(status & body_read & -> & Hstatus)
                            | [[status ->] | Hwrite]]]; [done| |done|].
    + destruct body_read; [|done]. unfold response_ok.
      apply andb_false_intro1. apply andb_false_iff.
      destruct Hstatus; [left; by apply Nat.leb_gt | right; by apply Nat.leb_gt].
    + destruct (request_get w j url) as [|status [|]]; [done| |done].
      rewrite bool_decide_eq_false_2 by done. apply andb_false_r.
  - intros Hsave.
    pose proof (attempt_attempted w i game st) as Hatt. fold st1 in Hatt.
    assert (Hbody : ∃ st', loop_body w ds i game st = Normal st'
                           ∧ progress st' = progress st1
                           ∧ failed_count st' = failed_count st1
                           ∧ gets (trace st') = gets (trace st1)).
    { unfold loop_body, checkpoint, save_progress. fold st1. fold (resolved st1).
      rewrite decide_False, Hcheck by done.
      destruct (Nat.eqb_spec (resolved st1 mod 10) 0) as [Hten|Hten].
      - destruct Hsave as [Hsave | ->]; [done|].
        eexists. split; [done|]. by rewrite gets_add_sleep, gets_add_save.
      - eexists. split; [done|]. by rewrite gets_add_sleep. }
    destruct Hbody as (st' & Hbody & Hp & Hfc & Hg).
    exists st'. split_and!; try done.
    + by rewrite Hg, (attempted_gets _ _ _ Hatt).
    + intros rest. simpl. by rewrite Hbody.
Qed.

Lemma fetch_failure_contained_witness :
  let game := {| title := "Game 1";
                 image_url := "https://rec0ded88.com/covers/game-1.png" |} in
  let st1 := attempt missing_world 1 game (initial (load_progress None) ∅) in
  failed_count st1 = 1 ∧ downloaded_count st1 = 0.
Proof.
  intros game st1.
  destruct (fetch_failure_contained missing_world ∅ 1 game
              (initial (load_progress None) ∅))
    as (_ & Hf & Hd & _).
  - vm_compute. intros H. discriminate H.
  - reflexivity.
  - vm_compute. reflexivity.
  - split; [exact Hf | exact Hd].
Defined.


(** * Further properties of the code *)

(** ** [get_extension] and the file names *)






(** X2: the [while filepath.exists()] loop always ends, after at most as many
    further names as there are files in the directory, and the path it leaves
    is the first name of the series stem + ext, stem-1 + ext, stem-2 + ext,
    ... that is not the name of an existing file. *)
Theorem unique_path_is_fresh (files : gset string) (safe_name ext : string) :
  (unique_path files safe_name ext ∉ files)
  ∧ probe files safe_name ext (size files) 1 (safe_name +:+ ext)
    = Some (unique_path files safe_name ext)
  ∧ ∃ m, m ≤ size files
         ∧ unique_path files safe_name ext = candidate safe_name ext m
         ∧ ∀ j, j < m → candidate safe_name ext j ∈ files.
Proof.
  destruct (least_free files safe_name ext) as (m & Hm & Hfree & Hbusy).
  pose proof (unique_path_at files safe_name ext m Hfree Hbusy) as Hpath.
  split_and!.
  - by rewrite Hpath.
  - rewrite Hpath.
    apply (probe_finds files safe_name ext (size files) 0 m); [lia | lia | | done].
    intros j Hj. apply Hbusy. lia.
  - by exists m.
Qed.

(** ** The files and the counters of a run *)

Lemma attempt_files w i game st :
  files st ⊆ files (attempt w i game st)
  ∧ size (files st) + downloaded_count (attempt w i game st)
    ≤ size (files (attempt w i game st)) + downloaded_count st.
Proof.
  unfold attempt, download_image.
  destruct (unique_path_is_fresh (files st) (sanitize_filename (title game))
              (get_extension w (image_url game))) as [Hfresh _].
  fold (game_path w (files st) game) in Hfresh.
  assert (Hnew : size ({[game_path w (files st) game]} ∪ files st)
                 = S (size (files st)))
    by (rewrite size_union, size_singleton by set_solver; lia).
  destruct (request_get w i (image_url game)) as [|status body_read];
    [simpl; split; [done | lia]|].
  destruct (response_ok status); [|simpl; split; [done | lia]].
  destruct body_read; [|simpl; split; [done | lia]].
  destruct (file_write w i _); simpl; (split; [set_solver | lia]).
Qed.

Lemma loop_body_files w ds i game st :
  ∃ s, (s = st ∨ s = attempt w i game st)
       ∧ files (state_of (loop_body w ds i game st)) = files s
       ∧ downloaded_count (state_of (loop_body w ds i game st))
         = downloaded_count s.
Proof.
  unfold loop_body, checkpoint, save_progress.
  case_decide; [exists st; by auto|].
  destruct (path_check w i); [|exists st; by auto].
  exists (attempt w i game st). split; [by right|].
  destruct (_ =? 0); [|done]. by destruct (progress_write w _).
Qed.

(** X3: a run never removes or overwrites a file of the output directory:
    the files that were there are still there at the end, and every download
    that is counted wrote a file of its own, so the directory has grown by at
    least the number of downloads. *)
Theorem downloads_get_own_files (w : World) (stored : option Progress)
    (files0 : gset string) (games : list Game) :
  let r := main w stored files0 games in
  files0 ⊆ files (final r)
  ∧ size files0 + downloaded_count (final r) ≤ size (files (final r)).
Proof.
  intros r.
  set (I := λ st : State, files0 ⊆ files st
                          ∧ size files0 + downloaded_count st ≤ size (files st)).
  assert (Hinit : I (initial (load_progress stored) files0))
    by (split; simpl; [done | lia]).
  assert (Hstep : ∀ ds i game st, I st → I (state_of (loop_body w ds i game st))).
  { intros ds i game st [Hsub Hsize].
    destruct (loop_body_files w ds i game st) as (s & [-> | ->] & Hf & Hd);
      unfold I; rewrite Hf, Hd; [done|].
    destruct (attempt_files w i game st) as [Hsub' Hsize'].
    split; [set_solver | lia]. }
  cut (I (final r)); [done|].
  subst r. unfold main.
  destruct (unique_games games) as [|game rest]; [done|].
  set (ds := list_to_set (downloaded (load_progress stored)) : gset string).
  pose proof (loop_state_invariant w ds I (Hstep ds) (game :: rest) 1 _ Hinit)
    as Hloop.
  destruct (loop w ds 1 (game :: rest) _) as [st|st]; [|done].
  unfold save_progress. by destruct (progress_write w _).
Qed.

Lemma loop_length_le w ds games : ∀ i st,
  resolved (state_of (loop w ds i games st))
  + skipped_count (state_of (loop w ds i games st))
  ≤ resolved st + skipped_count st + length games.
Proof.
  induction games as [|game rest IH]; intros i st; simpl; [lia|].
  pose proof (loop_body_stepped w ds i game st) as Hstep.
  destruct (loop_body w ds i game st) as [st1|st1] eqn:Hbody.
  - specialize (IH (S i) st1). apply loop_body_counted in Hbody as [Hs Hr _ _].
    pose proof (length_filter_complement (λ g, image_url g ∈ ds) [game]).
    simpl in *. lia.
  - simpl.
    inversion Hstep as [ | Hout | | | st2 Hout Hatt Hten]; subst; [lia|].
    rewrite (attempted_resolved _ _ _ Hatt), (attempted_skipped _ _ _ Hatt). lia.
Qed.

(** X4: the three counters of the summary never exceed the number of games
    found, and in a run that completes they add up to it: every game is
    downloaded, skipped or failed, and none is counted twice. *)
Theorem counters_add_up (w : World) (stored : option Progress)
    (files0 : gset string) (games : list Game) :
  let r := main w stored files0 games in
  downloaded_count (final r) + skipped_count (final r) + failed_count (final r)
  ≤ total r
  ∧ (exit r = Complete →
     downloaded_count (final r) + skipped_count (final r)
     + failed_count (final r) = total r).
Proof.
  intros r.
  pose proof (main_total w stored files0 games) as Htotal. fold r in Htotal.
  rewrite Htotal.
  pose proof (main_cases w stored files0 games) as Hcases.
  cbv zeta in Hcases. fold r in Hcases.
  set (p0 := load_progress stored) in *.
  set (ds := list_to_set (downloaded p0) : gset string) in *.
  pose proof (loop_length_le w ds (unique_games games) 1 (initial p0 files0))
    as Hle.
  unfold resolved in Hle. cbn [downloaded_count failed_count skipped_count initial] in Hle.
  destruct Hcases as [[Hnil ->] | [(st & _ & Hx & Hfin & Hl)
                                  | (st & _ & Hl & Hx & Hfin)]].
  - rewrite Hnil. simpl. split; [lia | done].
  - rewrite Hfin, Hx. split; [|done].
    destruct Hl as [Hl | [Hl _]]; rewrite Hl in Hle; simpl in Hle; lia.
  - rewrite Hfin. cbn [downloaded_count failed_count skipped_count add_event].
    apply loop_length in Hl as Hlen. unfold resolved in Hlen.
    cbn [downloaded_count failed_count skipped_count initial] in Hlen.
    split; [lia | intros _; lia].
Qed.


Lemma loop_downloaded_NoDup w ds games : ∀ i st,
  NoDup (image_url <$> games) →
  NoDup (downloaded (progress st)) →
  (∀ url, url ∈ downloaded (progress st) →
          url ∈ ds ∨ url ∉ image_url <$> games) →
  NoDup (downloaded (progress (state_of (loop w ds i games st)))).
Proof.
  induction games as [|game rest IH]; intros i st Hgames Hst Hold; [done|].
  rewrite fmap_cons in Hgames, Hold. apply NoDup_cons in Hgames as [Hhead Hrest].
  assert (Hkeep : ∀ url, url ∈ downloaded (progress st) →
                         url ∈ ds ∨ url ∉ image_url <$> rest).
  { intros url Hurl. destruct (Hold url Hurl) as [?|Hnot]; [by left|].
    right. intros Hin. apply Hnot. by right. }
  cbn [loop].
  pose proof (loop_body_stepped w ds i game st) as Hstep.
  assert (Hnext : ∀ st1, Attempted game st st1 → image_url game ∉ ds →
            NoDup (downloaded (progress st1))
            ∧ ∀ url, url ∈ downloaded (progress st1) →
                     url ∈ ds ∨ url ∉ image_url <$> rest).
  { intros st1 [Hp _ _ _ _ | e Hp _ _ _ _ _] Hout; rewrite Hp; simpl; [|done].
    split.
    - apply NoDup_app. split_and!; [done| |apply NoDup_singleton].
      intros url Hurl ->%list_elem_of_singleton.
      destruct (Hold _ Hurl) as [?|Hnot]; [done|]. apply Hnot. by left.
    - intros url [Hurl | ->%list_elem_of_singleton]%elem_of_app; [by apply Hkeep|].
      by right. }
  destruct (loop_body w ds i game st) as [st1|st1];
    inversion Hstep as [Hin | Hout | s1 Hout Hatt Hten | s1 Hout Hatt Hten
                       | s1 Hout Hatt Hten]; subst.
  - by apply IH.
  - destruct (Hnext _ Hatt Hout). by apply IH.
  - destruct (Hnext _ Hatt Hout). by apply IH.
  - done.
  - by destruct (Hnext _ Hatt Hout).
Qed.

(** X5: the [downloaded] list stays free of duplicates: when progress.json
    lists no url twice, no record of the run does, the final one and the ones
    saved included.  A url is appended only after a download, and a game is
    downloaded only when its url is not in the loaded list and, the games
    being deduplicated, was not downloaded earlier in the run. *)
Theorem downloaded_stays_unique (w : World) (stored : option Progress)
    (files0 : gset string) (games : list Game) :
  NoDup (downloaded (load_progress stored)) →
  let r := main w stored files0 games in
  NoDup (downloaded (progress (final r)))
  ∧ ∀ record, record ∈ saves (trace (final r)) → NoDup (downloaded record).
Proof.
  intros Hstored r.
  assert (Hfinal : NoDup (downloaded (progress (final r)))).
  { subst r. unfold main.
    destruct (unique_games games) as [|game rest] eqn:Hgames; [done|].
    set (p0 := load_progress stored) in *.
    set (ds := list_to_set (downloaded p0) : gset string).
    pose proof (loop_downloaded_NoDup w ds (game :: rest) 1 (initial p0 files0))
      as Hloop.
    rewrite <- Hgames in Hloop at 1.
    specialize (Hloop (unique_from_NoDup games ∅) Hstored).
    destruct (loop w ds 1 (game :: rest) (initial p0 files0)) as [st|st].
    - unfold save_progress. destruct (progress_write w _); simpl; apply Hloop;
        intros url Hurl; left; by apply elem_of_list_to_set.
    - simpl. apply Hloop. intros url Hurl. left. by apply elem_of_list_to_set. }
  split; [done|].
  intros record Hrecord.
  destruct (growing_main w stored files0 games) as (_ & Hsaved & _).
  destruct (Hsaved record Hrecord) as [_ [[tail Htail] _]]. fold r in Htail.
  rewrite Htail in Hfinal. by apply NoDup_app in Hfinal as [? _].
Qed.

Lemma downloaded_stays_unique_witness :
  let r := main fair_world None ∅ (example_games 3) in
  NoDup (downloaded (progress (final r))).
Proof.
  intros r.
  refine (proj1 (downloaded_stays_unique fair_world None ∅ (example_games 3) _)).
  simpl. constructor.
Defined.

(** ** The characters of a sanitized name *)

(** X6: whatever the title, the name [sanitize_filename] returns holds none
    of the nine characters of [Char.illegal] (slash and backslash among them),
    no whitespace and no capital letter (lower-casing it again changes
    nothing), and it does not begin with a hyphen. *)
Theorem sanitized_characters (name : string) :
  let stem := list_ascii_of_string (sanitize_filename name) in
  (∀ c, c ∈ stem →
        Char.illegal c = false ∧ Char.isspace c = false ∧ Char.lower c = c)
  ∧ head stem ≠ Some Char.hyphen.
Proof.
  intros stem. subst stem. unfold sanitize_filename.
  rewrite list_ascii_of_string_of_list_ascii. split.
  - apply Forall_forall, sanitize_chars_classes.
  - unfold sanitize_chars.
    set (legal := remove_chars Char.illegal (list_ascii_of_string name)).
    set (spaced := sub_runs Char.isspace false (strip Char.isspace legal)).
    set (trimmed := strip Char.is_hyphen (sub_runs Char.is_hyphen false spaced)).
    destruct trimmed as [|d rest] eqn:Htrimmed; [done|].
    simpl. intros [= Hd].
    assert (Hhead : Char.is_hyphen d = false).
    { apply (lstrip_head Char.is_hyphen
               (rstrip Char.is_hyphen (sub_runs Char.is_hyphen false spaced))).
      fold (strip Char.is_hyphen (sub_runs Char.is_hyphen false spaced)).
      fold trimmed. by rewrite Htrimmed. }
    destruct (lower_classes d) as (_ & _ & Hhyphen & _).
    rewrite Hd, Hhead in Hhyphen. done.
Qed.

Lemma chars_app (s t : string) :
  list_ascii_of_string (s +:+ t)
  = list_ascii_of_string s ++ list_ascii_of_string t.
Proof. induction s as [|c s IH]; simpl; [done|]. by rewrite IH. Qed.

Lemma pretty_N_go_no_slash (x : N) : ∀ s,
  "/"%char ∉ list_ascii_of_string s →
  "/"%char ∉ list_ascii_of_string (pretty_N_go x s).
Proof.
  induction (N.lt_wf_0 x) as [x _ IH]; intros s Hs.
  assert (x = 0 ∨ 0 < x)%N as [-> | Hpos] by lia.
  - by rewrite pretty_N_go_0.
  - rewrite pretty_N_go_step by done. apply IH.
    + by apply N.div_lt.
    + simpl. apply not_elem_of_cons. split; [|done].
      unfold pretty_N_char. by repeat case_match.
Qed.

Lemma pretty_nat_no_slash (n : nat) :
  "/"%char ∉ list_ascii_of_string (pretty n).
Proof.
  unfold pretty, pretty_nat, pretty, pretty_N. case_decide.
  - simpl. by intros ?%list_elem_of_singleton.
  - apply pretty_N_go_no_slash. simpl. apply not_elem_of_nil.
Qed.

(** X7: the file name of a game never leaves the output directory: whatever
    the title and the url, the name has no slash in it and at least four
    characters, so it is neither "." nor ".." nor a path into another
    directory. *)
Theorem game_path_in_directory (w : World) (files0 : gset string) (game : Game) :
  ("/"%char ∉ list_ascii_of_string (game_path w files0 game))
  ∧ 4 ≤ String.length (game_path w files0 game).
Proof.
  unfold game_path.
  destruct (unique_path_first_free files0 (sanitize_filename (title game))
              (get_extension w (image_url game))) as (m & -> & _).
  assert (Hstem : "/"%char ∉ list_ascii_of_string (sanitize_filename (title game))).
  { unfold sanitize_filename. rewrite list_ascii_of_string_of_list_ascii.
    intros Hin.
    pose proof (sanitize_chars_classes (list_ascii_of_string (title game))) as Hall.
    rewrite Forall_forall in Hall. by destruct (Hall _ Hin) as [? _]. }
  assert (Hext : ("/"%char ∉ list_ascii_of_string (get_extension w (image_url game)))
                 ∧ 4 ≤ String.length (get_extension w (image_url game))).
  { assert (Hin : get_extension w (image_url game) ∈ image_extensions).
    { unfold get_extension, extension_of_path. case_bool_decide; [done|].
      unfold image_extensions. set_solver. }
    unfold image_extensions in Hin.
    repeat (apply elem_of_cons in Hin as [-> | Hin];
            [split; [apply (bool_decide_unpack _); by vm_compute
                    | simpl; lia]|]).
    by apply elem_of_nil in Hin. }
  destruct Hext as [Hext Hlen].
  destruct m as [|m]; unfold candidate; rewrite !chars_app, !string_app_length.
  - split; [|lia]. rewrite elem_of_app. tauto.
  - split; [|lia]. rewrite !elem_of_app.
    pose proof (pretty_nat_no_slash (S m)).
    assert ("/"%char ∉ list_ascii_of_string "-")
      by (by intros ?%list_elem_of_singleton).
    tauto.
Qed.

(** ** The games taken from the page *)

Lemma truthy_nonempty s : truthy s = true ↔ s ≠ "".
Proof.
  unfold truthy. rewrite negb_true_iff. apply eqb_neq.
Qed.

Lemma game_of_image_Some urljoin img game :
  game_of_image urljoin img = Some game →
  title game ≠ ""
  ∧ image_src img ≠ ""
  ∧ contains "NES_Covers" (image_src img) = true
  ∧ image_url game = urljoin (image_src img)
  ∧ title game = (if truthy (default "" (alt img)) then default "" (alt img)
                  else fallback_title (image_src img)).
Proof.
  unfold game_of_image.
  destruct (truthy (image_src img)) eqn:Hsrc; [|done].
  destruct (contains "NES_Covers" (image_src img)) eqn:Hcover; [|done].
  cbn [negb andb].
  destruct (truthy (if truthy (default "" (alt img)) then default "" (alt img)
                    else fallback_title (image_src img))) eqn:Htitle; [|done].
  intros [= <-]. cbn [title image_url].
  split_and!; try done; by apply truthy_nonempty.
Qed.

Lemma omap_length_le {A B} (f : A → option B) (l : list A) :
  length (omap f l) ≤ length l.
Proof.
  induction l as [|x l IH]; [done|].
  change (omap f (x :: l))
    with (match f x with Some y => y :: omap f l | None => omap f l end).
  destruct (f x); cbn [length]; lia.
Qed.

(** X8: every game that [extract_games_from_page] returns comes from an
    image of the page whose [src] (or, when that is missing or empty, its
    [data-src]) is not empty and contains "NES_Covers"; its url is that
    source made absolute, its title is the [alt] text when there is one and
    else the title made from the file name, and its title is never empty.
    No two games returned have the same url, and there are at most as many
    games as images. *)
Theorem extracted_games (urljoin : string → string) (images : list Image) :
  let games := extract_games_from_page urljoin images in
  (∀ game, game ∈ games →
     title game ≠ ""
     ∧ ∃ img, img ∈ images
              ∧ image_src img ≠ ""
              ∧ contains "NES_Covers" (image_src img) = true
              ∧ image_url game = urljoin (image_src img)
              ∧ title game
                = (if truthy (default "" (alt img)) then default "" (alt img)
                   else fallback_title (image_src img)))
  ∧ NoDup (image_url <$> games)
  ∧ length games ≤ length images.
Proof.
  intros games. subst games. unfold extract_games_from_page. split_and!.
  - intros game Hgame.
    eapply elem_of_sublist in Hgame; [|apply unique_from_sublist].
    apply list_elem_of_omap in Hgame as (img & Himg & Hsome).
    apply game_of_image_Some in Hsome as (Htitle & Hsrc & Hcover & Hurl & Halt).
    split; [done|]. by exists img.
  - apply unique_from_NoDup.
  - etrans; [apply sublist_length, unique_from_sublist|].
    apply omap_length_le.
Qed.

Lemma replace_hyphen_clean s :
  Forall (λ c, c ≠ "-"%char) (replace "-" " " s).
Proof.
  unfold replace. simpl list_ascii_of_string.
  induction s as [|c rest IH]; [constructor|].
  cbn [replace_from starts_with length Nat.sub].
  case_bool_decide as Hc; cbn [andb].
  - cbn [app]. by constructor.
  - constructor; [|done]. by intros ->.
Qed.

(** X9: a title made from the file name has no hyphen left in it: the last
    of the four replacements turns every hyphen into a space.  So
    "Mega-Man-2-USA.png" under any directory gives the title "Mega Man 2". *)
Theorem fallback_title_no_hyphen (src : string) :
  (∀ c, c ∈ list_ascii_of_string (fallback_title src) → c ≠ "-"%char)
  ∧ fallback_title "/wp-content/uploads/NES_Covers-2D/Mega-Man-2-USA.png"
    = "Mega Man 2".
Proof.
  split; [|by vm_compute].
  unfold fallback_title. rewrite list_ascii_of_string_of_list_ascii.
  apply Forall_forall, replace_hyphen_clean.
Qed.

(** ** The wait for the page *)

Lemma poll_rounds contents fuel : ∀ k,
  k + fuel = 15 →
  ∃ rounds, k ≤ rounds ≤ 15
            ∧ (k < 15 → k < rounds)
            ∧ poll contents fuel k (2 * k) = Some (2 * rounds)
            ∧ (∀ j, k ≤ j → j + 1 < rounds → page_loaded (contents j) = false)
            ∧ (k < rounds → rounds < 15 →
               page_loaded (contents (rounds - 1)) = true).
Proof.
  induction fuel as [|fuel IH]; intros k Hk.
  - exists k. assert (k = 15) as -> by lia.
    split_and!; try lia. done.
  - cbn [poll]. destruct (Nat.ltb_spec (2 * k) 30) as [Hlt|Hge]; [|lia].
    destruct (page_loaded (contents k)) eqn:Hloaded.
    + exists (S k). split_and!; try lia.
      * f_equal. lia.
      * intros _ _. by replace (S k - 1) with k by lia.
    + destruct (IH (S k)) as (rounds & Hr & Hprog & Hpoll & Hnot & Hyes); [lia|].
      exists rounds. split_and!; try lia.
      * replace (2 * k + 2) with (2 * S k) by lia. done.
      * intros j Hj Hj'. destruct (decide (j = k)) as [->|]; [done|].
        apply Hnot; lia.
      * intros _ Hlt15. apply Hyes; [|done].
        destruct (decide (S k < 15)); [by apply Hprog | lia].
Qed.

(** X10: the wait for the Cloudflare check always ends, after 1 to 15
    rounds of two seconds, so after 30 seconds at most: it ends with the
    first round in which the page holds both "Play NES Games" and "10-Yard",
    and with the fifteenth round when there is no such round before. *)
Theorem wait_for_page_bounded (contents : nat → string) :
  ∃ rounds, 1 ≤ rounds ≤ 15
            ∧ wait_for_page contents = Some (2 * rounds)
            ∧ (∀ j, j + 1 < rounds → page_loaded (contents j) = false)
            ∧ (rounds < 15 → page_loaded (contents (rounds - 1)) = true).
Proof.
  destruct (poll_rounds contents 15 0) as (rounds & Hr & Hprog & Hpoll & Hnot & Hyes);
    [done|].
  exists rounds. split_and!; try lia.
  - done.
  - intros j Hj. apply Hnot; lia.
  - intros Hlt. apply Hyes; lia.
Qed.

(** ** The scrolling *)

Section Scroll.

Variables (heights : nat → nat) (scroll_step : nat).



End Scroll.


(** ** [download_image] and the directory *)

(** X12: [download_image] makes one request and no second one.  It returns
    [True] exactly when the status is in 200..299, the body could be read and
    the file could be written; the file then exists.  Whatever happens, no
    other file of the directory is touched: the files that were there stay,
    and only [filepath] can be new. *)
Theorem download_image_effect (w : World) (i : nat) (url filepath : string)
    (files0 : gset string) :
  let r := download_image w i url filepath files0 in
  (r.1.1 = true ↔
   ∃ status, request_get w i url = Response status true
             ∧ 200 ≤ status ≤ 299
             ∧ file_write w i filepath = Written)
  ∧ gets r.2 = [url]
  ∧ files0 ⊆ r.1.2
  ∧ r.1.2 ⊆ {[filepath]} ∪ files0
  ∧ (r.1.1 = true → filepath ∈ r.1.2).
Proof.
  intros r. subst r. unfold download_image, response_ok.
  destruct (request_get w i url) as [|status body_read] eqn:Hget.
  { cbn. split_and!; [|done|done|set_solver|done].
    split; [done | by intros (? & ? & _)]. }
  destruct (Nat.leb_spec 200 status) as [Hlow|Hlow];
    destruct (Nat.leb_spec status 299) as [Hhigh|Hhigh]; cbn [andb];
    try (cbn; split_and!; [|done|done|set_solver|done];
         split; [done | intros (s & [= <- _] & ? & _); lia]).
  destruct body_read.
  - destruct (file_write w i filepath) eqn:Hwrite; cbn.
    + split_and!; [|done|set_solver|set_solver|set_solver].
      split; [|done]. intros _. exists status. split_and!; done || lia.
    + split_and!; [|done|done|set_solver|done].
      split; [done | by intros (s & _ & _ & ?)].
    + split_and!; [|done|set_solver|set_solver|done].
      split; [done | by intros (s & _ & _ & ?)].
  - cbn. split_and!; [|done|done|set_solver|done].
    split; [done | by intros (s & [= _ ?] & _)].
Qed.

(** ** The extraction and the run together *)

Lemma unique_from_id games : ∀ seen : gset string,
  NoDup (image_url <$> games) →
  (∀ url, url ∈ image_url <$> games → url ∉ seen) →
  unique_from seen games = games.
Proof.
  induction games as [|game rest IH]; intros seen Hnodup Hfresh; [done|].
  rewrite fmap_cons in Hnodup, Hfresh. apply NoDup_cons in Hnodup as [Hhead Hrest].
  cbn [unique_from]. rewrite decide_False by (apply Hfresh; by left).
  f_equal. apply IH; [done|].
  intros url Hurl. apply not_elem_of_union. split.
  - intros ->%elem_of_singleton. done.
  - apply Hfresh. by right.
Qed.

(** X13: removing the duplicates twice is removing them once.  So the run
    on the list that [extract_games_from_page] returns, which has no
    duplicates left, is the run on the list of all the games of the page. *)
Theorem unique_games_idempotent (games : list Game) :
  unique_games (unique_games games) = unique_games games
  ∧ ∀ w stored files0 urljoin images,
      main w stored files0 (extract_games_from_page urljoin images)
      = main w stored files0 (games_of_images urljoin images).
Proof.
  assert (Hid : ∀ l, unique_games (unique_games l) = unique_games l).
  { intros l. apply unique_from_id; [apply unique_from_NoDup|].
    intros url _. apply not_elem_of_empty. }
  split; [apply Hid|].
  intros w stored files0 urljoin images.
  unfold main, extract_games_from_page. by rewrite Hid.
Qed.

(** X14: without a progress file nothing is skipped: every game of a first
    run is attempted, and a first run that completes requests every game of
    the deduplicated list, in order. *)
Theorem first_run_skips_nothing (w : World) (files0 : gset string)
    (games : list Game) :
  let r := main w None files0 games in
  skipped_count (final r) = 0
  ∧ (exit r = Complete →
     gets (trace (final r)) = image_url <$> unique_games games).
Proof.
  intros r.
  set (ds := list_to_set (downloaded (load_progress None)) : gset string).
  assert (Hempty : ∀ url, url ∉ ds) by (intros url; apply not_elem_of_empty).
  split.
  - assert (Hstep : ∀ i g st, skipped_count st = 0 →
              skipped_count (state_of (loop_body w ds i g st)) = 0).
    { intros i g st Hst.
      destruct (loop_body_stepped w ds i g st)
        as [Hin | _ | st1 _ Hatt _ | st1 _ Hatt _ | st1 _ Hatt _];
        cbn [state_of skipped_count add_event];
        [by destruct (Hempty (image_url g)) | done | ..];
        by rewrite (attempted_skipped _ _ _ Hatt). }
    subst r. unfold main. fold ds.
    destruct (unique_games games) as [|game rest]; [done|].
    pose proof (loop_state_invariant w ds (λ st, skipped_count st = 0) Hstep
                  (game :: rest) 1 (initial (load_progress None) files0) eq_refl)
      as Hloop.
    destruct (loop w ds 1 (game :: rest) _) as [st|st]; [|done].
    unfold save_progress. by destruct (progress_write w _).
  - intros Hexit. apply main_complete in Hexit as (st & Hloop & Hfinal).
    subst r. rewrite Hfinal, gets_add_save.
    apply loop_counted in Hloop as [_ _ Hg _]. rewrite Hg. fold ds.
    assert (Hall : ∀ (X : gset string) (l : list Game),
              (∀ url, url ∉ X) → filter (λ g, image_url g ∉ X) l = l).
    { intros X l HX. induction l as [|g l IH]; [done|].
      rewrite filter_cons_True by apply HX. by rewrite IH. }
    rewrite Hall by apply Hempty. done.
Qed.

Lemma attempted_lengths game st st1 :
  Attempted game st st1 →
  length (downloaded (progress st1)) + downloaded_count st
  = length (downloaded (progress st)) + downloaded_count st1
  ∧ length (failed (progress st1)) + failed_count st
    = length (failed (progress st)) + failed_count st1.
Proof.
  intros [Hp Hd Hf _ _ | e Hp Hd Hf _ _ _]; rewrite Hp; cbn [downloaded failed];
    rewrite ?length_app; cbn [length]; lia.
Qed.

(** X15: the record and the counters agree: at the end of every run, however
    it ends, [downloaded] has grown by as many urls as downloads were counted
    and [failed] by as many entries as failures were counted. *)
Theorem record_matches_counters (w : World) (stored : option Progress)
    (files0 : gset string) (games : list Game) :
  let p0 := load_progress stored in
  let st := final (main w stored files0 games) in
  length (downloaded (progress st)) = length (downloaded p0) + downloaded_count st
  ∧ length (failed (progress st)) = length (failed p0) + failed_count st.
Proof.
  intros p0 st.
  set (I := λ s : State,
         length (downloaded (progress s)) = length (downloaded p0) + downloaded_count s
         ∧ length (failed (progress s)) = length (failed p0) + failed_count s).
  assert (Hstep : ∀ ds i g s, I s → I (state_of (loop_body w ds i g s))).
  { intros ds i g s [Hd Hf].
    destruct (loop_body_stepped w ds i g s)
      as [_ | _ | s1 _ Hatt _ | s1 _ Hatt _ | s1 _ Hatt _];
      unfold I; cbn [state_of progress downloaded_count failed_count add_event skip];
      [done | done | ..];
      destruct (attempted_lengths _ _ _ Hatt); lia. }
  cut (I st); [done|].
  subst st. unfold main. fold p0.
  destruct (unique_games games) as [|game rest].
  { unfold I. cbn. lia. }
  set (ds := list_to_set (downloaded p0) : gset string).
  assert (Hinit : I (initial p0 files0)) by (unfold I; cbn; lia).
  pose proof (loop_state_invariant w ds I (Hstep ds) (game :: rest) 1 _ Hinit)
    as Hloop.
  destruct (loop w ds 1 (game :: rest) _) as [s|s]; [|done].
  unfold save_progress. by destruct (progress_write w _).
Qed.
